(** * urlMonitor: the uptime-monitoring engine of [src/entity/monitor.go]

    A shallow embedding of the [entity] package: the [Monitor], [LogEntry] and
    [DowntimeEntry] structs, the [UptimeMonitor] object and its methods.

    Every method of [UptimeMonitor] that touches shared state runs with
    [um.mu] held from its first to its last statement, so one method call is
    one atomic step on the state; [checkURL] is the exception and is written
    below as the sequence of its locked sections.  What the outside world
    supplies during a call (the clock, the HTTP answer, the decoded JSON body)
    is an explicit argument. *)

From Stdlib Require Import ZArith String Ascii.
From stdpp Require Import gmap strings list.

(** ** The parts of Go's [time] package the engine uses *)

Module time.
Local Open Scope Z_scope.

(** [time.Duration] is an [int64] count of nanoseconds. *)
Definition Duration := Z.
Bind Scope Z_scope with Duration.

Definition Nanosecond : Duration := 1.
Definition Microsecond : Duration := 1000 * Nanosecond.
Definition Millisecond : Duration := 1000 * Microsecond.
Definition Second : Duration := 1000 * Millisecond.

Definition minDuration : Duration := - 2 ^ 63.
Definition maxDuration : Duration := 2 ^ 63 - 1.

(** [int64] wrap-around, as Go's [*] on [Duration] has it. *)
Definition wrap64 (z : Z) : Z := (z + 2 ^ 63) mod 2 ^ 64 - 2 ^ 63.

Definition mul (a b : Duration) : Duration := wrap64 (a * b).

(** A [time.Time] is a wall-clock instant, with or without a reading of the
    monotonic clock.  Without one ([Wall]) the instant is any number of
    nanoseconds since January 1, year 1, 00:00:00 UTC; this is the form of
    the zero [Time] of a field that was never assigned.  With one ([Mono],
    the form of every value [time.Now()] returns) Go holds the wall clock as
    an unsigned offset from January 1, 1885, next to the monotonic reading;
    both are in nanoseconds here. *)
Inductive Time :=
| Wall (ns : Z)
| Mono (since1885 : N) (mono : Z).

#[global] Instance Time_eq_dec : EqDecision Time.
Proof. solve_decision. Defined.

(** The seconds from year 1 to year 1885 (Go's [wallToInternal]), in
    nanoseconds. *)
Definition wallToInternal : Z :=
  (1884 * 365 + 1884 / 4 - 1884 / 100 + 1884 / 400) * 86400 * 1000000000.

(** The wall-clock instant of [t], in nanoseconds since year 1. *)
Definition wall (t : Time) : Z :=
  match t with
  | Wall ns => ns
  | Mono since1885 _ => wallToInternal + Z.of_N since1885
  end.

(** The monotonic reading of [t], when it carries one. *)
Definition monotonic (t : Time) : option Z :=
  match t with
  | Wall _ => None
  | Mono _ mono => Some mono
  end.

Definition zero : Time := Wall 0.

(** [t.IsZero()]: the wall clock reads the zero instant. *)
Definition IsZero (t : Time) : bool := wall t =? 0.

(** A difference as a [Duration]: the largest (smallest) one when it does
    not fit. *)
Definition clamp (z : Z) : Duration :=
  if z <? minDuration then minDuration
  else if maxDuration <? z then maxDuration
  else z.

(** [t.Sub(u)]: when both carry a monotonic reading, the difference of the
    monotonic readings alone; otherwise the difference of the wall-clock
    instants. *)
Definition Sub (t u : Time) : Duration :=
  match t, u with
  | Mono _ m, Mono _ m' => clamp (m - m')
  | _, _ => clamp (wall t - wall u)
  end.

(** *** [Duration.String] *)

Definition digit (d : Z) : ascii := ascii_of_N (Z.to_N (48 + d)).

(** [fmtFrac]: the [prec] low decimal digits of [v] as a fraction, trailing
    zeros and a then useless decimal point left out; returns the text put in
    front of [buf] and [v / 10^prec]. *)
Fixpoint fmtFrac (buf : string) (v : Z) (prec : nat) (print : bool)
  : string * Z :=
  match prec with
  | O => (if print then String "." buf else buf, v)
  | S prec' =>
      let d := v mod 10 in
      let print := print || negb (d =? 0) in
      fmtFrac (if print then String (digit d) buf else buf) (v / 10) prec' print
  end.

(** [fmtInt]: the decimal digits of [v] put in front of [buf]. *)
Fixpoint fmtInt_loop (fuel : nat) (buf : string) (v : Z) : string :=
  match fuel with
  | O => buf
  | S fuel' =>
      if 0 <? v then fmtInt_loop fuel' (String (digit (v mod 10)) buf) (v / 10)
      else buf
  end.

Definition fmtInt (buf : string) (v : Z) : string :=
  if v =? 0 then String "0" buf else fmtInt_loop 20 buf v.

(** U+00B5, the micro sign, in UTF-8. *)
Definition micro : string :=
  String (ascii_of_N 194) (String (ascii_of_N 181) EmptyString).

Definition Duration_String (d : Duration) : string :=
  let u := Z.abs d in
  let neg := d <? 0 in
  let body :=
    if u <? Second then
      if u =? 0 then "0s"%string
      else if u <? Microsecond then fmtInt "ns" u
      else if u <? Millisecond then
        let '(buf, u) := fmtFrac (micro +:+ "s") u 3 false in fmtInt buf u
      else
        let '(buf, u) := fmtFrac "ms" u 6 false in fmtInt buf u
    else
      let '(buf, u) := fmtFrac "s" u 9 false in
      let buf := fmtInt buf (u mod 60) in
      let u := u / 60 in
      if 0 <? u then
        let buf := fmtInt (String "m" buf) (u mod 60) in
        let u := u / 60 in
        if 0 <? u then fmtInt (String "h" buf) u else buf
      else buf
  in
  if neg then String "-" body else body.

(** [time.NewTicker d] panics when [d <= 0]; [None] is that panic. *)
Record Ticker := { period : Duration }.

Definition NewTicker (d : Duration) : option Ticker :=
  if d <=? 0 then None else Some {| period := d |}.
End time.

Bind Scope Z_scope with time.Duration.

(** ** The error of Go's HTTP client *)

Module url.
(** Every error [http.Client.Get] returns is a [*url.Error]: the operation,
    the URL, and the error underneath.  Of the URL the value keeps here what
    [%q] prints of it ([strconv.Quote(e.URL)]), of the error underneath its
    text ([e.Err.Error()]). *)
Record Error := { Op : string; QuotedURL : string; Err : string }.

(** [e.Error()], that is [fmt.Sprintf("%s %q: %s", e.Op, e.URL, e.Err)]. *)
Definition Error_text (e : Error) : string :=
  Op e +:+ " " +:+ QuotedURL e +:+ ": " +:+ Err e.
End url.

(** ** Data model *)

Module Monitor.
Record t := { URL : string; Interval : time.Duration }.
End Monitor.

Module LogEntry.
Record t := {
  Timestamp : time.Time;
  URL : string;
  StatusCode : Z;
  ResponseTime : Z;
  Success : bool;
  Error : string
}.

Definition set_StatusCode (c : Z) (e : t) : t :=
  {| Timestamp := Timestamp e; URL := URL e; StatusCode := c;
     ResponseTime := ResponseTime e; Success := Success e; Error := Error e |}.
Definition set_Success (b : bool) (e : t) : t :=
  {| Timestamp := Timestamp e; URL := URL e; StatusCode := StatusCode e;
     ResponseTime := ResponseTime e; Success := b; Error := Error e |}.
Definition set_Error (s : string) (e : t) : t :=
  {| Timestamp := Timestamp e; URL := URL e; StatusCode := StatusCode e;
     ResponseTime := ResponseTime e; Success := Success e; Error := s |}.
End LogEntry.

Module DowntimeEntry.
Record t := {
  URL : string;
  StartTime : time.Time;
  EndTime : time.Time;
  Duration : string;
  StatusCode : Z;
  ErrorDetail : string
}.

Definition set_EndTime (x : time.Time) (d : t) : t :=
  {| URL := URL d; StartTime := StartTime d; EndTime := x;
     Duration := Duration d; StatusCode := StatusCode d;
     ErrorDetail := ErrorDetail d |}.
Definition set_Duration (s : string) (d : t) : t :=
  {| URL := URL d; StartTime := StartTime d; EndTime := EndTime d;
     Duration := s; StatusCode := StatusCode d;
     ErrorDetail := ErrorDetail d |}.

(** A record is open while its end timestamp is the zero instant. *)
Definition open (d : t) : bool := time.IsZero (EndTime d).
End DowntimeEntry.

(** A [chan struct{}] is known by its identity; whether it has been closed is
    part of the runtime state. *)
Definition chan := nat.

Record Client := { Timeout : time.Duration }.

Record UptimeMonitor := {
  monitors : gmap string Monitor.t;
  logs : list LogEntry.t;
  downtimes : list DowntimeEntry.t;
  stopChannels : gmap string chan;
  client : Client
}.

(** A goroutine started by [go um.monitorURL(url, interval, stop)]. *)
Record Goroutine := {
  g_url : string;
  g_interval : time.Duration;
  g_stop : chan
}.

(** The engine object together with what [make(chan ...)], [close] and [go]
    act on. *)
Record Runtime := {
  um : UptimeMonitor;
  chanNext : chan;
  chanClosed : gset chan;
  goroutines : list Goroutine
}.

Definition with_um (f : UptimeMonitor → UptimeMonitor) (rt : Runtime) : Runtime :=
  {| um := f (um rt); chanNext := chanNext rt; chanClosed := chanClosed rt;
     goroutines := goroutines rt |}.

Definition set_monitors (m : gmap string Monitor.t) (u : UptimeMonitor) :=
  {| monitors := m; logs := logs u; downtimes := downtimes u;
     stopChannels := stopChannels u; client := client u |}.
Definition set_logs (l : list LogEntry.t) (u : UptimeMonitor) :=
  {| monitors := monitors u; logs := l; downtimes := downtimes u;
     stopChannels := stopChannels u; client := client u |}.
Definition set_downtimes (d : list DowntimeEntry.t) (u : UptimeMonitor) :=
  {| monitors := monitors u; logs := logs u; downtimes := d;
     stopChannels := stopChannels u; client := client u |}.
Definition set_stopChannels (s : gmap string chan) (u : UptimeMonitor) :=
  {| monitors := monitors u; logs := logs u; downtimes := downtimes u;
     stopChannels := s; client := client u |}.

(** ** The monad of engine code: state passing, with Go panics *)

Inductive Res (A : Type) :=
| Ok (a : A) (rt : Runtime)
| Panic (msg : string).
Arguments Ok {A} a rt.
Arguments Panic {A} msg.

Definition M (A : Type) := Runtime → Res A.

Definition ret {A} (a : A) : M A := λ rt, Ok a rt.
Definition bind {A B} (m : M A) (k : A → M B) : M B :=
  λ rt, match m rt with Ok a rt' => k a rt' | Panic msg => Panic msg end.
Definition panic {A} (msg : string) : M A := λ _, Panic msg.
Definition get : M UptimeMonitor := λ rt, Ok (um rt) rt.
Definition modify (f : UptimeMonitor → UptimeMonitor) : M unit :=
  λ rt, Ok tt (with_um f rt).

#[global] Instance M_ret : MRet M := @ret.
#[global] Instance M_bind : MBind M := λ A B k m, bind m k.

(** [make(chan struct{})]: a channel nobody holds yet. *)
Definition make_chan : M chan :=
  λ rt, Ok (chanNext rt)
           {| um := um rt; chanNext := S (chanNext rt);
              chanClosed := chanClosed rt; goroutines := goroutines rt |}.

(** [close(c)]: closing a closed channel panics. *)
Definition close (c : chan) : M unit :=
  λ rt, if decide (c ∈ chanClosed rt) then Panic "close of closed channel"
        else Ok tt {| um := um rt; chanNext := chanNext rt;
                      chanClosed := {[c]} ∪ chanClosed rt;
                      goroutines := goroutines rt |}.

(** [go um.monitorURL(url, interval, stop)] *)
Definition go (g : Goroutine) : M unit :=
  λ rt, Ok tt {| um := um rt; chanNext := chanNext rt;
                 chanClosed := chanClosed rt;
                 goroutines := goroutines rt ++ [g] |}.

(** Go's [error]: [None] is [nil], [Some msg] an error whose [Error()] is
    [msg]. *)
Definition error := option string.

Definition Errorf3 (a b c : string) : error := Some (a +:+ b +:+ c).

(** ** The engine *)

Definition NewUptimeMonitor : UptimeMonitor :=
  {| monitors := ∅; logs := []; downtimes := []; stopChannels := ∅;
     client := {| Timeout := (10 * time.Second)%Z |} |}.

(** The process right after [NewUptimeMonitor()]. *)
Definition boot : Runtime :=
  {| um := NewUptimeMonitor; chanNext := 0; chanClosed := ∅; goroutines := [] |}.

Definition AddMonitor (url : string) (interval : time.Duration) : M error :=
  let interval := if (interval =? 0)%Z then (30 * time.Second)%Z else interval in
  u ← get;
  match monitors u !! url with
  | Some _ => mret (Errorf3 "URL " url " is already being monitored")
  | None =>
      modify (λ u, set_monitors
                     (<[url := {| Monitor.URL := url; Monitor.Interval := interval |}]>
                        (monitors u)) u);;
      stopChan ← make_chan;
      modify (λ u, set_stopChannels (<[url := stopChan]> (stopChannels u)) u);;
      go {| g_url := url; g_interval := interval; g_stop := stopChan |};;
      mret None
  end.

Definition RemoveMonitor (url : string) : M error :=
  u ← get;
  match stopChannels u !! url with
  | Some stopChan =>
      close stopChan;;
      modify (λ u, set_stopChannels (delete url (stopChannels u)) u);;
      modify (λ u, set_monitors (delete url (monitors u)) u);;
      mret None
  | None => mret (Errorf3 "URL " url " is not being monitored")
  end.

(** [getLastDowntime]: the scan from index [len - 1] down to [0]; the pointer
    [&um.downtimes[i]] it returns is the index [i], [None] is [nil]. *)
Fixpoint getLastDowntime_from (ds : list DowntimeEntry.t) (url : string)
    (n : nat) : option nat :=
  match n with
  | O => None
  | S i =>
      match ds !! i with
      | Some d =>
          if decide (DowntimeEntry.URL d = url) then Some i
          else getLastDowntime_from ds url i
      | None => None
      end
  end.

Definition getLastDowntime (ds : list DowntimeEntry.t) (url : string)
  : option nat :=
  getLastDowntime_from ds url (length ds).

(** Reading and writing through a pointer into [um.downtimes]. *)
Definition load (p : nat) : M DowntimeEntry.t :=
  u ← get;
  match downtimes u !! p with
  | Some d => mret d
  | None => panic "invalid memory address"
  end.

Definition store (p : nat) (d : DowntimeEntry.t) : M unit :=
  modify (λ u, set_downtimes (<[p := d]> (downtimes u)) u).

Definition handleFailure (entry : LogEntry.t) : M unit :=
  modify (λ u, set_logs (logs u ++ [entry]) u);;
  u ← get;
  start ← match getLastDowntime (downtimes u) (LogEntry.URL entry) with
          | None => mret true
          | Some p => d ← load p;
                      mret (negb (time.IsZero (DowntimeEntry.EndTime d)))
          end;
  if start : bool then
    modify (λ u, set_downtimes
                   (downtimes u ++
                      [{| DowntimeEntry.URL := LogEntry.URL entry;
                          DowntimeEntry.StartTime := LogEntry.Timestamp entry;
                          DowntimeEntry.EndTime := time.zero;
                          DowntimeEntry.Duration := "";
                          DowntimeEntry.StatusCode := LogEntry.StatusCode entry;
                          DowntimeEntry.ErrorDetail := LogEntry.Error entry |}]) u)
  else mret tt.

(** [now] is what [time.Now()] returns inside the call. *)
Definition handleSuccess (url : string) (now : time.Time) : M unit :=
  u ← get;
  match getLastDowntime (downtimes u) url with
  | None => mret tt
  | Some p =>
      d ← load p;
      if time.IsZero (DowntimeEntry.EndTime d) then
        store p (DowntimeEntry.set_EndTime now d);;
        d ← load p;
        store p (DowntimeEntry.set_Duration
                   (time.Duration_String
                      (time.Sub (DowntimeEntry.EndTime d) (DowntimeEntry.StartTime d)))
                   d)
      else mret tt
  end.

(** What one call of [checkURL] gets from outside: the answer of
    [um.client.Get(url)], the elapsed milliseconds, and the two clock
    readings (for [entry.Timestamp], and inside [handleSuccess]). *)
Inductive GetResult :=
| GetErr (err : url.Error)    (* err != nil *)
| GetResp (StatusCode : Z).   (* a completed response *)

Record Probe := {
  result : GetResult;
  responseTime : Z;
  timestamp : time.Time;
  closeTime : time.Time
}.

Definition checkURL (url : string) (io : Probe) : M unit :=
  let entry := {| LogEntry.Timestamp := timestamp io;
                  LogEntry.URL := url;
                  LogEntry.StatusCode := 0;
                  LogEntry.ResponseTime := responseTime io;
                  LogEntry.Success := false;
                  LogEntry.Error := "" |} in
  match result io with
  | GetErr err =>
      let entry := LogEntry.set_Success false entry in
      let entry := LogEntry.set_Error (url.Error_text err) entry in
      handleFailure entry
  | GetResp code =>
      let entry := LogEntry.set_StatusCode code entry in
      let entry := LogEntry.set_Success ((200 <=? code)%Z && (code <? 300)%Z) entry in
      modify (λ u, set_logs (logs u ++ [entry]) u);;
      if negb (LogEntry.Success entry) then handleFailure entry
      else handleSuccess url (closeTime io)
  end.

(** [monitorURL]: the ticker, then the [for { select { ... } }] loop, run
    along the sequence of cases the scheduler picks.  A receive from [stop]
    is ready only once the channel is closed. *)
Inductive SelectCase :=
| CaseStop
| CaseTick (io : Probe).

Fixpoint monitorURL_loop (url : string) (stop : chan) (sched : list SelectCase)
  : M unit :=
  match sched with
  | [] => mret tt
  | CaseStop :: sched' =>
      λ rt, if decide (stop ∈ chanClosed rt) then Ok tt rt
            else monitorURL_loop url stop sched' rt
  | CaseTick io :: sched' =>
      checkURL url io;; monitorURL_loop url stop sched'
  end.

Definition monitorURL (url : string) (interval : time.Duration) (stop : chan)
    (sched : list SelectCase) : M unit :=
  match time.NewTicker interval with
  | None => panic "non-positive interval for NewTicker"
  | Some _ => monitorURL_loop url stop sched
  end.

Definition run_goroutine (g : Goroutine) (sched : list SelectCase) : M unit :=
  monitorURL (g_url g) (g_interval g) (g_stop g) sched.

(** [GetLogs] and [GetDowntimes]: the [range] loops with [append]. *)
Definition GetLogs (url : string) : M (list LogEntry.t) :=
  u ← get;
  mret (foldl (λ urlLogs log,
                 if decide (LogEntry.URL log = url) then urlLogs ++ [log]
                 else urlLogs) [] (logs u)).

Definition GetDowntimes (url : string) : M (list DowntimeEntry.t) :=
  u ← get;
  mret (foldl (λ urlDowntimes downtime,
                 if decide (DowntimeEntry.URL downtime = url)
                 then urlDowntimes ++ [downtime]
                 else urlDowntimes) [] (downtimes u)).

(** ** The add handler *)

(** The request as the handler sees it: the method, and what
    [json.NewDecoder(r.Body).Decode(&req)] gives, an error or the struct. *)
Record AddBody := { req_URL : string; req_Interval : Z }.
Record Request := { Method : string; Body : string + AddBody }.
Record Response := { Status : Z; Text : string }.

Definition newline : string := String (ascii_of_N 10) EmptyString.

Definition http_Error (msg : string) (code : Z) : Response :=
  {| Status := code; Text := msg +:+ newline |}.

Definition HandleAddMonitor (r : Request) : M Response :=
  if negb (String.eqb (Method r) "POST") then
    mret (http_Error "Method not allowed" 405)
  else
    match Body r with
    | inl err => mret (http_Error err 400)
    | inr req =>
        let interval := time.mul (req_Interval req) time.Second in
        err ← AddMonitor (req_URL req) interval;
        match err with
        | Some msg => mret (http_Error msg 400)
        | None => mret {| Status := 201; Text := "" |}
        end
    end.

(** ** Sequences of engine calls *)

(** The entry points through which anything reaches the shared state.
    [CLog] is the locked section of [checkURL] that appends the entry of a
    completed response; with it, [CFailure] and [CSuccess], every interleaving
    of concurrent [checkURL] calls is a sequence of calls. *)
Inductive Call :=
| CAdd (url : string) (interval : time.Duration)
| CRemove (url : string)
| CCheck (url : string) (io : Probe)
| CLog (entry : LogEntry.t)
| CFailure (entry : LogEntry.t)
| CSuccess (url : string) (now : time.Time)
| CGetLogs (url : string)
| CGetDowntimes (url : string).

Definition exec (c : Call) : M unit :=
  match c with
  | CAdd url interval => AddMonitor url interval;; mret tt
  | CRemove url => RemoveMonitor url;; mret tt
  | CCheck url io => checkURL url io
  | CLog entry => modify (λ u, set_logs (logs u ++ [entry]) u)
  | CFailure entry => handleFailure entry
  | CSuccess url now => handleSuccess url now
  | CGetLogs url => GetLogs url;; mret tt
  | CGetDowntimes url => GetDowntimes url;; mret tt
  end.

Fixpoint exec_all (cs : list Call) : M unit :=
  match cs with
  | [] => mret tt
  | c :: cs' => exec c;; exec_all cs'
  end.

(** The states the engine can be in: [boot], and what a call makes of one. *)
Inductive reachable : Runtime → Prop :=
| reach_boot : reachable boot
| reach_step rt c rt' :
    reachable rt → exec c rt = Ok tt rt' → reachable rt'.

(** ** Vocabulary of the statements *)

(** The downtime records of a target, oldest first, and the last-created one. *)
Definition records_of (url : string) (ds : list DowntimeEntry.t)
  : list DowntimeEntry.t :=
  filter (λ d, DowntimeEntry.URL d = url) ds.

Definition most_recent (ds : list DowntimeEntry.t) (url : string)
  : option DowntimeEntry.t :=
  last (records_of url ds).

(** How many records of a target are open. *)
Definition open_count (url : string) (ds : list DowntimeEntry.t) : nat :=
  length (filter (λ d, DowntimeEntry.URL d = url ∧ DowntimeEntry.open d = true) ds).

Ltac run_M :=
  cbv beta iota delta
    [mbind M_bind bind mret M_ret ret modify get load store panic];
  simpl.

(** The record a failure outcome seeds, and a record once closed at [now]. *)
Definition seeded (entry : LogEntry.t) : DowntimeEntry.t :=
  {| DowntimeEntry.URL := LogEntry.URL entry;
     DowntimeEntry.StartTime := LogEntry.Timestamp entry;
     DowntimeEntry.EndTime := time.zero;
     DowntimeEntry.Duration := "";
     DowntimeEntry.StatusCode := LogEntry.StatusCode entry;
     DowntimeEntry.ErrorDetail := LogEntry.Error entry |}.

Definition closed_at (now : time.Time) (d : DowntimeEntry.t) : DowntimeEntry.t :=
  {| DowntimeEntry.URL := DowntimeEntry.URL d;
     DowntimeEntry.StartTime := DowntimeEntry.StartTime d;
     DowntimeEntry.EndTime := now;
     DowntimeEntry.Duration :=
       time.Duration_String (time.Sub now (DowntimeEntry.StartTime d));
     DowntimeEntry.StatusCode := DowntimeEntry.StatusCode d;
     DowntimeEntry.ErrorDetail := DowntimeEntry.ErrorDetail d |}.

(** The target's last-created record exists and is open. *)
Definition is_down (ds : list DowntimeEntry.t) (url : string) : bool :=
  match most_recent ds url with
  | Some d => DowntimeEntry.open d
  | None => false
  end.

(** ** Invariants *)

(** Only the last-created record of a target can be open: an open record is
    the one [getLastDowntime] finds for its target. *)
Definition dt_inv (ds : list DowntimeEntry.t) : Prop :=
  ∀ p d, ds !! p = Some d → DowntimeEntry.open d = true →
         getLastDowntime ds (DowntimeEntry.URL d) = Some p.

(** The registry and the cancellation handles go together: same keys, every
    handle a channel that was made, is not closed, and is held by one target
    only. *)
Record reg_inv (rt : Runtime) : Prop := {
  reg_dom : dom (monitors (um rt)) = dom (stopChannels (um rt));
  reg_chan : ∀ url c, stopChannels (um rt) !! url = Some c →
                      c < chanNext rt ∧ c ∉ chanClosed rt;
  reg_inj : ∀ url1 url2 c, stopChannels (um rt) !! url1 = Some c →
                           stopChannels (um rt) !! url2 = Some c → url1 = url2;
  reg_closed : ∀ c, c ∈ chanClosed rt → c < chanNext rt
}.

Definition Inv (rt : Runtime) : Prop :=
  reg_inv rt ∧ dt_inv (downtimes (um rt)).

(** ** Sample data for the scenarios *)

Definition target : string := "http://a.test".
Definition other : string := "http://b.test".

(** Three readings of [time.Now()] one second apart, on both clocks. *)
Definition t0 : time.Time := time.Mono 4386355200000000000 5000000000.
Definition t1 : time.Time := time.Mono 4386355201000000000 6000000000.
Definition t2 : time.Time := time.Mono 4386355202000000000 7000000000.

(** A completed response with status [code], seen at [t]. *)
Definition answered (code : Z) (t : time.Time) : Probe :=
  {| result := GetResp code; responseTime := 12; timestamp := t;
     closeTime := t |}.

(** The error of a request to [target] that ran into the client's timeout,
    and its text. *)
Definition in_quotes (s : string) : string :=
  String (ascii_of_N 34) (s +:+ String (ascii_of_N 34) EmptyString).

Definition timeout_error : url.Error :=
  {| url.Op := "Get"; url.QuotedURL := in_quotes target;
     url.Err := "context deadline exceeded" |}.

Definition timeout_text : string :=
  Eval vm_compute in url.Error_text timeout_error.

(** A request that timed out, seen at [t]. *)
Definition timed_out (t : time.Time) : Probe :=
  {| result := GetErr timeout_error; responseTime := 10000;
     timestamp := t; closeTime := t |}.

(** A reading of [time.Now()] after [t0]: the wall clock has advanced by
    20.247684 ms, the monotonic clock by 20.247694 ms. *)
Definition t0_drifted : time.Time :=
  time.Mono 4386355200020247684 5020247694.

(** An add request with a negative interval, as the decoder hands it over. *)
Definition negative_request : Request :=
  {| Method := "POST";
     Body := inr {| req_URL := target; req_Interval := -1 |} |}.

(** The state with [target] registered and down since [t0]. *)
Definition down_since_t0 : Runtime :=
  {| um := {| monitors := {[ target := {| Monitor.URL := target;
                                          Monitor.Interval := time.Second |} ]};
              logs := [{| LogEntry.Timestamp := t0; LogEntry.URL := target;
                          LogEntry.StatusCode := 0; LogEntry.ResponseTime := 10000;
                          LogEntry.Success := false;
                          LogEntry.Error := timeout_text |}];
              downtimes := [{| DowntimeEntry.URL := target;
                               DowntimeEntry.StartTime := t0;
                               DowntimeEntry.EndTime := time.zero;
                               DowntimeEntry.Duration := "";
                               DowntimeEntry.StatusCode := 0;
                               DowntimeEntry.ErrorDetail := timeout_text |}];
              stopChannels := {[ target := 0 ]};
              client := {| Timeout := (10 * time.Second)%Z |} |};
     chanNext := 1; chanClosed := ∅;
     goroutines := [{| g_url := target; g_interval := time.Second; g_stop := 0 |}] |}.

(** The log entry of a 503 answer of [url], seen at [t]. *)
Definition unavailable (url : string) (t : time.Time) : LogEntry.t :=
  {| LogEntry.Timestamp := t; LogEntry.URL := url; LogEntry.StatusCode := 503;
     LogEntry.ResponseTime := 12; LogEntry.Success := false;
     LogEntry.Error := "" |}.

(** ** The other handlers *)

(** What [HandleRemoveMonitor], [HandleGetLogs] and [HandleGetDowntimes] read
    of a request: the method, and [r.URL.Query().Get("url")], which is the
    empty string when the parameter is absent. *)
Module Query.
Record t := { Method : string; url : string }.
End Query.

(** What a query handler writes: an [http.Error], or the value it hands to
    [json.NewEncoder(w).Encode] (the status is then 200). *)
Inductive Reply (A : Type) :=
| ReplyError (r : Response)
| ReplyJSON (v : A).
Arguments ReplyError {A} r.
Arguments ReplyJSON {A} v.

Definition HandleRemoveMonitor (r : Query.t) : M Response :=
  if negb (String.eqb (Query.Method r) "DELETE") then
    mret (http_Error "Method not allowed" 405)
  else
    let url := Query.url r in
    if String.eqb url "" then
      mret (http_Error "URL parameter is required" 400)
    else
      err ← RemoveMonitor url;
      match err with
      | Some msg => mret (http_Error msg 404)
      | None => mret {| Status := 200; Text := "" |}
      end.

Definition HandleGetLogs (r : Query.t) : M (Reply (list LogEntry.t)) :=
  if negb (String.eqb (Query.Method r) "GET") then
    mret (ReplyError (http_Error "Method not allowed" 405))
  else
    let url := Query.url r in
    if String.eqb url "" then
      mret (ReplyError (http_Error "URL parameter is required" 400))
    else
      logs ← GetLogs url;
      mret (ReplyJSON logs).

Definition HandleGetDowntimes (r : Query.t) : M (Reply (list DowntimeEntry.t)) :=
  if negb (String.eqb (Query.Method r) "GET") then
    mret (ReplyError (http_Error "Method not allowed" 405))
  else
    let url := Query.url r in
    if String.eqb url "" then
      mret (ReplyError (http_Error "URL parameter is required" 400))
    else
      downtimes ← GetDowntimes url;
      mret (ReplyJSON downtimes).

(** ** Atomic transitions *)

(** The log entry [checkURL url] builds from what it got from outside, and
    whether that is a failure (a transport error, or a status outside
    [200, 300)). *)
Definition entry_of (url : string) (io : Probe) : LogEntry.t :=
  match result io with
  | GetErr err =>
      {| LogEntry.Timestamp := timestamp io; LogEntry.URL := url;
         LogEntry.StatusCode := 0; LogEntry.ResponseTime := responseTime io;
         LogEntry.Success := false; LogEntry.Error := url.Error_text err |}
  | GetResp code =>
      {| LogEntry.Timestamp := timestamp io; LogEntry.URL := url;
         LogEntry.StatusCode := code; LogEntry.ResponseTime := responseTime io;
         LogEntry.Success := (200 <=? code)%Z && (code <? 300)%Z;
         LogEntry.Error := "" |}
  end.

Definition failing (io : Probe) : bool :=
  match result io with
  | GetErr _ => true
  | GetResp code => negb ((200 <=? code)%Z && (code <? 300)%Z)
  end.

(** Every engine call is a sequence of these transitions, each made with
    [um.mu] held.  [L] holds of the entries that get logged, [F] of those
    that open a downtime. *)
Inductive step (L F : LogEntry.t → Prop) : Runtime → Runtime → Prop :=
| step_log rt e :
    L e →
    step L F rt (with_um (λ u, set_logs (logs u ++ [e]) u) rt)
| step_open rt e :
    F e → e ∈ logs (um rt) →
    is_down (downtimes (um rt)) (LogEntry.URL e) = false →
    step L F rt (with_um (λ u, set_downtimes (downtimes u ++ [seeded e]) u) rt)
| step_close rt url now p d :
    getLastDowntime (downtimes (um rt)) url = Some p →
    downtimes (um rt) !! p = Some d →
    DowntimeEntry.open d = true →
    step L F rt
      (with_um (λ u, set_downtimes (<[p := closed_at now d]> (downtimes u)) u) rt)
| step_add rt url interval :
    monitors (um rt) !! url = None → interval ≠ 0%Z →
    step L F rt
      {| um := set_stopChannels (<[url := chanNext rt]> (stopChannels (um rt)))
                 (set_monitors
                    (<[url := {| Monitor.URL := url; Monitor.Interval := interval |}]>
                       (monitors (um rt))) (um rt));
         chanNext := S (chanNext rt);
         chanClosed := chanClosed rt;
         goroutines := goroutines rt ++
           [{| g_url := url; g_interval := interval; g_stop := chanNext rt |}] |}
| step_remove rt url c :
    stopChannels (um rt) !! url = Some c → c ∉ chanClosed rt →
    step L F rt
      {| um := set_monitors (delete url (monitors (um rt)))
                 (set_stopChannels (delete url (stopChannels (um rt))) (um rt));
         chanNext := chanNext rt;
         chanClosed := {[c]} ∪ chanClosed rt;
         goroutines := goroutines rt |}.

(** What a call must satisfy for its transitions to respect [L] and [F]. *)
Definition call_ok (L F : LogEntry.t → Prop) (c : Call) : Prop :=
  match c with
  | CLog e => L e
  | CFailure e => L e ∧ F e
  | CCheck url io =>
      L (entry_of url io) ∧ (failing io = true → F (entry_of url io))
  | _ => True
  end.




(** [d'] is the record [d] later on: the same incident, and the same record
    altogether once [d] is closed. *)
Definition same_incident (d d' : DowntimeEntry.t) : Prop :=
  DowntimeEntry.URL d' = DowntimeEntry.URL d ∧
  DowntimeEntry.StartTime d' = DowntimeEntry.StartTime d ∧
  DowntimeEntry.StatusCode d' = DowntimeEntry.StatusCode d ∧
  DowntimeEntry.ErrorDetail d' = DowntimeEntry.ErrorDetail d ∧
  (DowntimeEntry.open d = false → d' = d).

(** Between two states, nothing of the history was lost: the log only grew,
    and every downtime record is still in its place. *)
Definition history_kept (rt rt' : Runtime) : Prop :=
  logs (um rt) `prefix_of` logs (um rt') ∧
  ∀ p d, downtimes (um rt) !! p = Some d →
         ∃ d', downtimes (um rt') !! p = Some d' ∧ same_incident d d'.


(** Pollers and registry: the [i]-th goroutine started waits on channel
    [i]; a cancellation handle is the channel of a goroutine of that target,
    started with the registered interval; a goroutine's channel is closed or
    is the handle of its target. *)
Record pollers_inv (rt : Runtime) : Prop := {
  pol_next : chanNext rt = length (goroutines rt);
  pol_stop : ∀ i g, goroutines rt !! i = Some g →
                    g_stop g = i ∧ g_interval g ≠ 0%Z;
  pol_handle : ∀ url c, stopChannels (um rt) !! url = Some c →
      ∃ g, goroutines rt !! c = Some g ∧ g_url g = url ∧
           monitors (um rt) !! url
           = Some {| Monitor.URL := url; Monitor.Interval := g_interval g |};
  pol_live : ∀ i g, goroutines rt !! i = Some g →
      i ∈ chanClosed rt ∨ stopChannels (um rt) !! g_url g = Some i;
  pol_keys : ∀ url, monitors (um rt) !! url = None
                    ↔ stopChannels (um rt) !! url = None
}.

(** From [down_since_t0]: another timeout, then the recovery. *)
Definition recovery_calls : list Call :=
  [CCheck target (timed_out t1); CCheck target (answered 200 t2)].

Definition recovered : Runtime :=
  match exec_all recovery_calls down_since_t0 with
  | Ok _ rt => rt
  | Panic _ => down_since_t0
  end.

(** From [down_since_t0]: the target removed. *)
Definition removed : Runtime :=
  match RemoveMonitor target down_since_t0 with
  | Ok _ rt => rt
  | Panic _ => down_since_t0
  end.

Definition delete_request : Query.t :=
  {| Query.Method := "DELETE"; Query.url := target |}.

(** The ticks of a schedule, its stop cases left out. *)
Definition ticks (sched : list SelectCase) : list Probe :=
  omap (λ c, match c with CaseStop => None | CaseTick io => Some io end) sched.

(** * Proofs *)

(** ** [getLastDowntime] *)

Section last_downtime.
Implicit Types (ds : list DowntimeEntry.t) (d : DowntimeEntry.t).
Implicit Types (url : string) (n p : nat).

Lemma getLastDowntime_from_Some ds url n p :
  getLastDowntime_from ds url n = Some p →
  p < n ∧ ∃ d, ds !! p = Some d ∧ DowntimeEntry.URL d = url ∧
    ∀ j d', p < j < n → ds !! j = Some d' → DowntimeEntry.URL d' ≠ url.
Proof.
  induction n as [|n IH]; simpl; [done|].
  destruct (ds !! n) as [d|] eqn:Hn; [|done].
  case_decide as Hu.
  - intros [= <-]. split; [lia|]. exists d. repeat split; try done. lia.
  - intros Hp. destruct (IH Hp) as (Hlt & d0 & Hd0 & Hu0 & Hlater).
    split; [lia|]. exists d0. repeat split; try done.
    intros j d' Hj Hd'. destruct (decide (j = n)) as [->|].
    + congruence.
    + apply (Hlater j d'); [lia|done].
Qed.

Lemma getLastDowntime_from_None ds url n :
  n ≤ length ds → getLastDowntime_from ds url n = None →
  ∀ j d, j < n → ds !! j = Some d → DowntimeEntry.URL d ≠ url.
Proof.
  induction n as [|n IH]; simpl; intros Hn Hnone j d Hj Hd; [lia|].
  destruct (lookup_lt_is_Some_2 ds n) as [dn Hdn]; [lia|].
  rewrite Hdn in Hnone. case_decide as Hu; [done|].
  destruct (decide (j = n)) as [->|]; [congruence|].
  apply (IH ltac:(lia) Hnone j d); [lia|done].
Qed.

Lemma getLastDowntime_from_app ds ds' url n :
  n ≤ length ds →
  getLastDowntime_from (ds ++ ds') url n = getLastDowntime_from ds url n.
Proof.
  induction n as [|n IH]; simpl; intros Hn; [done|].
  rewrite lookup_app_l by lia. rewrite IH by lia. done.
Qed.

Lemma getLastDowntime_snoc ds d url :
  getLastDowntime (ds ++ [d]) url =
  if decide (DowntimeEntry.URL d = url) then Some (length ds)
  else getLastDowntime ds url.
Proof.
  unfold getLastDowntime. rewrite length_app, Nat.add_1_r. simpl.
  rewrite list_lookup_middle by done.
  case_decide; [done|]. by apply getLastDowntime_from_app.
Qed.

Lemma getLastDowntime_from_insert ds url n p d d' :
  ds !! p = Some d → DowntimeEntry.URL d' = DowntimeEntry.URL d →
  getLastDowntime_from (<[p:=d']> ds) url n = getLastDowntime_from ds url n.
Proof.
  intros Hp Hu. induction n as [|n IH]; simpl; [done|].
  destruct (decide (p = n)) as [->|Hne].
  - rewrite list_lookup_insert_eq by (by eapply lookup_lt_Some).
    rewrite Hp, Hu, IH. done.
  - rewrite list_lookup_insert_ne by done. by rewrite IH.
Qed.

Lemma getLastDowntime_insert ds url p d d' :
  ds !! p = Some d → DowntimeEntry.URL d' = DowntimeEntry.URL d →
  getLastDowntime (<[p:=d']> ds) url = getLastDowntime ds url.
Proof.
  intros. unfold getLastDowntime. rewrite length_insert.
  by eapply getLastDowntime_from_insert.
Qed.

Lemma getLastDowntime_Some ds url p :
  getLastDowntime ds url = Some p →
  ∃ d, ds !! p = Some d ∧ DowntimeEntry.URL d = url ∧
    ∀ j d', p < j → ds !! j = Some d' → DowntimeEntry.URL d' ≠ url.
Proof.
  intros Hp. apply getLastDowntime_from_Some in Hp as (_ & d & Hd & Hu & Hl).
  exists d. repeat split; try done.
  intros j d' Hj Hd'. apply (Hl j d'); [|done].
  split; [done|]. by eapply lookup_lt_Some.
Qed.

Lemma getLastDowntime_None ds url d :
  getLastDowntime ds url = None → d ∈ ds → DowntimeEntry.URL d ≠ url.
Proof.
  intros Hnone [j Hj]%list_elem_of_lookup.
  eapply (getLastDowntime_from_None ds url (length ds)); try done.
  by eapply lookup_lt_Some.
Qed.

(** The pointer returned is to the last-created record of the target. *)
Lemma getLastDowntime_most_recent ds url :
  getLastDowntime ds url ≫= (ds !!.) = most_recent ds url.
Proof.
  unfold most_recent, records_of.
  induction ds as [|d ds IH] using rev_ind; [done|].
  rewrite getLastDowntime_snoc, filter_app, filter_cons, filter_nil.
  case_decide as Hu; simpl.
  - rewrite list_lookup_middle by done. by rewrite last_snoc.
  - rewrite app_nil_r, <- IH.
    destruct (getLastDowntime ds url) as [p|] eqn:Hp; simpl; [|done].
    apply getLastDowntime_Some in Hp as (d0 & Hd0 & _).
    rewrite lookup_app_l; [done|]. by eapply lookup_lt_Some.
Qed.

Lemma most_recent_None ds url :
  most_recent ds url = None ↔ records_of url ds = [].
Proof. unfold most_recent. apply last_None. Qed.
End last_downtime.

(** ** What one call does to the state *)

Lemma mbind_run {A B} (m : M A) (k : A → M B) rt :
  (m ≫= k) rt = match m rt with Ok a rt' => k a rt' | Panic msg => Panic msg end.
Proof. done. Qed.

Lemma handleFailure_run entry rt :
  handleFailure entry rt =
  Ok tt (with_um (λ u,
    set_downtimes
      (if is_down (downtimes u) (LogEntry.URL entry) then downtimes u
       else downtimes u ++ [seeded entry])
      (set_logs (logs u ++ [entry]) u)) rt).
Proof.
  unfold handleFailure, is_down, with_um. cbv beta.
  rewrite <- getLastDowntime_most_recent. run_M.
  destruct (getLastDowntime _ _) as [p|] eqn:Hp; simpl; [|done].
  apply getLastDowntime_Some in Hp as (d & Hd & _). rewrite Hd. simpl.
  unfold DowntimeEntry.open. by destruct (time.IsZero _).
Qed.

Lemma handleSuccess_run url now rt :
  handleSuccess url now rt =
  Ok tt (with_um (λ u,
    set_downtimes
      (match getLastDowntime (downtimes u) url with
       | Some p =>
           match downtimes u !! p with
           | Some d => if DowntimeEntry.open d
                       then <[p := closed_at now d]> (downtimes u)
                       else downtimes u
           | None => downtimes u
           end
       | None => downtimes u
       end) u) rt).
Proof.
  unfold handleSuccess, with_um, set_downtimes. run_M.
  destruct rt as [[ms ls ds sc cl] cn cc gs]. simpl.
  destruct (getLastDowntime ds url) as [p|] eqn:Hp; simpl; [|done].
  apply getLastDowntime_Some in Hp as (d & Hd & _). rewrite Hd. simpl.
  unfold DowntimeEntry.open.
  destruct (time.IsZero _); [|done].
  rewrite list_lookup_insert_eq by (by eapply lookup_lt_Some). simpl.
  unfold with_um, set_downtimes. simpl. by rewrite list_insert_insert_eq.
Qed.

Lemma AddMonitor_run url interval rt :
  AddMonitor url interval rt =
  match monitors (um rt) !! url with
  | Some _ => Ok (Some ("URL " +:+ url +:+ " is already being monitored")) rt
  | None =>
      let interval' := if (interval =? 0)%Z then (30 * time.Second)%Z else interval in
      Ok None
        {| um := set_stopChannels (<[url := chanNext rt]> (stopChannels (um rt)))
                   (set_monitors
                      (<[url := {| Monitor.URL := url; Monitor.Interval := interval' |}]>
                         (monitors (um rt))) (um rt));
           chanNext := S (chanNext rt);
           chanClosed := chanClosed rt;
           goroutines := goroutines rt ++
             [{| g_url := url; g_interval := interval'; g_stop := chanNext rt |}] |}
  end.
Proof.
  unfold AddMonitor. run_M.
  destruct (monitors (um rt) !! url); done.
Qed.

Lemma RemoveMonitor_run url rt :
  RemoveMonitor url rt =
  match stopChannels (um rt) !! url with
  | Some stopChan =>
      if decide (stopChan ∈ chanClosed rt) then Panic "close of closed channel"
      else Ok None
        {| um := set_monitors (delete url (monitors (um rt)))
                   (set_stopChannels (delete url (stopChannels (um rt))) (um rt));
           chanNext := chanNext rt;
           chanClosed := {[stopChan]} ∪ chanClosed rt;
           goroutines := goroutines rt |}
  | None => Ok (Some ("URL " +:+ url +:+ " is not being monitored")) rt
  end.
Proof.
  unfold RemoveMonitor. run_M.
  destruct (stopChannels (um rt) !! url) as [c|]; [|done].
  unfold close. by case_decide.
Qed.

Lemma checkURL_run url io rt :
  checkURL url io rt =
  match result io with
  | GetErr err =>
      handleFailure
        {| LogEntry.Timestamp := timestamp io; LogEntry.URL := url;
           LogEntry.StatusCode := 0; LogEntry.ResponseTime := responseTime io;
           LogEntry.Success := false; LogEntry.Error := url.Error_text err |} rt
  | GetResp code =>
      let entry :=
        {| LogEntry.Timestamp := timestamp io; LogEntry.URL := url;
           LogEntry.StatusCode := code; LogEntry.ResponseTime := responseTime io;
           LogEntry.Success := (200 <=? code)%Z && (code <? 300)%Z;
           LogEntry.Error := "" |} in
      let rt1 := with_um (λ u, set_logs (logs u ++ [entry]) u) rt in
      if (200 <=? code)%Z && (code <? 300)%Z
      then handleSuccess url (closeTime io) rt1
      else handleFailure entry rt1
  end.
Proof.
  unfold checkURL. destruct (result io) as [err|code]; [done|].
  run_M. unfold LogEntry.set_Success, LogEntry.set_StatusCode. simpl.
  by destruct ((200 <=? code)%Z && (code <? 300)%Z).
Qed.

Lemma foldl_append_filter {A} (P : A → Prop) `{!∀ x, Decision (P x)}
    (l acc : list A) :
  foldl (λ out x, if decide (P x) then out ++ [x] else out) acc l
  = acc ++ filter P l.
Proof.
  revert acc. induction l as [|x l IH]; intros acc; simpl.
  - by rewrite app_nil_r.
  - rewrite IH, filter_cons. case_decide; [|done].
    by rewrite <- app_assoc.
Qed.

Lemma GetLogs_run url rt :
  GetLogs url rt = Ok (filter (λ e, LogEntry.URL e = url) (logs (um rt))) rt.
Proof.
  unfold GetLogs. run_M.
  by rewrite (foldl_append_filter (λ e, LogEntry.URL e = url)).
Qed.

Lemma GetDowntimes_run url rt :
  GetDowntimes url rt = Ok (records_of url (downtimes (um rt))) rt.
Proof.
  unfold GetDowntimes, records_of. run_M.
  by rewrite (foldl_append_filter (λ d, DowntimeEntry.URL d = url)).
Qed.

(** ** The invariants hold in every reachable state *)

Section downtime_invariant.
Implicit Types (ds : list DowntimeEntry.t) (d : DowntimeEntry.t).

Lemma dt_inv_nil : dt_inv [].
Proof. intros p d Hp. by rewrite lookup_nil in Hp. Qed.

Lemma dt_inv_is_down ds p d :
  dt_inv ds → ds !! p = Some d → DowntimeEntry.open d = true →
  is_down ds (DowntimeEntry.URL d) = true.
Proof.
  intros Hinv Hp Hopen. unfold is_down.
  rewrite <- getLastDowntime_most_recent, (Hinv p d Hp Hopen). simpl.
  by rewrite Hp.
Qed.

Lemma dt_inv_snoc ds d :
  dt_inv ds → is_down ds (DowntimeEntry.URL d) = false → dt_inv (ds ++ [d]).
Proof.
  intros Hinv Hup p d0 Hp Hopen. rewrite getLastDowntime_snoc.
  destruct (decide (p = length ds)) as [->|Hne].
  - rewrite list_lookup_middle in Hp by done. injection Hp as <-.
    by rewrite decide_True.
  - assert (p < length ds) as Hlt.
    { apply lookup_lt_Some in Hp. rewrite length_app in Hp. simpl in Hp. lia. }
    rewrite lookup_app_l in Hp by done.
    case_decide as Hu; [|by apply Hinv].
    rewrite Hu, (dt_inv_is_down ds p d0) in Hup; done.
Qed.

Lemma dt_inv_insert ds p d d' :
  dt_inv ds → ds !! p = Some d →
  DowntimeEntry.URL d' = DowntimeEntry.URL d →
  getLastDowntime ds (DowntimeEntry.URL d) = Some p →
  dt_inv (<[p:=d']> ds).
Proof.
  intros Hinv Hp Hu Hlast q d0 Hq Hopen.
  rewrite (getLastDowntime_insert ds _ p d d') by done.
  destruct (decide (p = q)) as [<-|Hne].
  - rewrite list_lookup_insert_eq in Hq by (by eapply lookup_lt_Some).
    injection Hq as <-. by rewrite Hu.
  - rewrite list_lookup_insert_ne in Hq by done. by apply Hinv.
Qed.

Lemma filter_at_most_one {A} (P : A → Prop) `{!∀ x, Decision (P x)}
    (l : list A) :
  (∀ i j x y, l !! i = Some x → l !! j = Some y → P x → P y → i = j) →
  length (filter P l) ≤ 1.
Proof.
  induction l as [|a l IH]; intros Huniq; [simpl; lia|].
  rewrite filter_cons. case_decide as Ha.
  - destruct (filter P l) as [|y t] eqn:Hf; [simpl; lia|].
    assert (y ∈ filter P l) as Hy by (rewrite Hf; left).
    apply list_elem_of_filter in Hy as [Hy [j Hj]%list_elem_of_lookup].
    by specialize (Huniq 0 (S j) a y eq_refl Hj Ha Hy).
  - apply IH. intros i j x y Hi Hj Hx Hy.
    by specialize (Huniq (S i) (S j) x y Hi Hj Hx Hy) as [= ->].
Qed.

Lemma dt_inv_open_count ds url : dt_inv ds → open_count url ds ≤ 1.
Proof.
  intros Hinv. apply filter_at_most_one.
  intros i j x y Hi Hj [Hxu Hxo] [Hyu Hyo].
  pose proof (Hinv i x Hi Hxo) as H1. pose proof (Hinv j y Hj Hyo) as H2.
  rewrite Hxu in H1. rewrite Hyu in H2. congruence.
Qed.
End downtime_invariant.

Section reachable_invariant.
Implicit Types (rt : Runtime) (c : Call).

Lemma reg_inv_frame rt rt' :
  monitors (um rt') = monitors (um rt) →
  stopChannels (um rt') = stopChannels (um rt) →
  chanNext rt' = chanNext rt → chanClosed rt' = chanClosed rt →
  reg_inv rt → reg_inv rt'.
Proof.
  intros Hm Hs Hn Hc [H1 H2 H3 H4].
  split; rewrite ?Hm, ?Hs, ?Hn, ?Hc; done.
Qed.

Lemma Inv_boot : Inv boot.
Proof.
  split; [split|]; simpl.
  - by rewrite !dom_empty_L.
  - intros url c Hc. by rewrite lookup_empty in Hc.
  - intros url1 url2 c Hc. by rewrite lookup_empty in Hc.
  - intros c Hc. by apply not_elem_of_empty in Hc.
  - apply dt_inv_nil.
Qed.

Lemma Inv_log rt l :
  Inv rt → Inv (with_um (λ u, set_logs l u) rt).
Proof. intros [Hreg Hdt]. split; [by apply (reg_inv_frame rt)|done]. Qed.

Lemma Inv_handleFailure rt entry :
  Inv rt → ∃ rt', handleFailure entry rt = Ok tt rt' ∧ Inv rt'.
Proof.
  intros [Hreg Hdt]. rewrite handleFailure_run. eexists. split; [done|].
  split; [by apply (reg_inv_frame rt)|]. simpl.
  destruct (is_down _ _) eqn:Hdown; [done|].
  by apply dt_inv_snoc.
Qed.

Lemma Inv_handleSuccess rt url now :
  Inv rt → ∃ rt', handleSuccess url now rt = Ok tt rt' ∧ Inv rt'.
Proof.
  intros [Hreg Hdt]. rewrite handleSuccess_run. eexists. split; [done|].
  split; [by apply (reg_inv_frame rt)|]. simpl.
  destruct (getLastDowntime _ url) as [p|] eqn:Hp; [|done].
  destruct (downtimes (um rt) !! p) as [d|] eqn:Hd; [|done].
  destruct (DowntimeEntry.open d) eqn:Hopen; [|done].
  eapply dt_inv_insert; [done..|]. by apply Hdt.
Qed.

Lemma Inv_AddMonitor rt url interval :
  Inv rt → ∃ err rt', AddMonitor url interval rt = Ok err rt' ∧ Inv rt'.
Proof.
  intros Hinv. rewrite AddMonitor_run.
  destruct (monitors (um rt) !! url) as [m|] eqn:Hm.
  { by eexists _, _. }
  destruct Hinv as [[Hdom Hchan Hinj Hclosed] Hdt].
  eexists _, _. split; [done|]. split; [split|done]; simpl.
  - by rewrite !dom_insert_L, Hdom.
  - intros url' c. rewrite lookup_insert. case_decide.
    + intros [= <-]. split; [lia|]. intros ?%Hclosed. lia.
    + intros [??]%Hchan. split; [lia|done].
  - intros url1 url2 c. rewrite !lookup_insert.
    repeat case_decide; try congruence.
    + intros [= <-] [? _]%Hchan. lia.
    + intros [? _]%Hchan [= <-]. lia.
    + apply Hinj.
  - intros c ?%Hclosed. lia.
Qed.

Lemma Inv_RemoveMonitor rt url :
  Inv rt → ∃ err rt', RemoveMonitor url rt = Ok err rt' ∧ Inv rt'.
Proof.
  intros Hinv. rewrite RemoveMonitor_run.
  destruct (stopChannels (um rt) !! url) as [c|] eqn:Hc.
  2:{ by eexists _, _. }
  destruct Hinv as [[Hdom Hchan Hinj Hclosed] Hdt].
  destruct (Hchan _ _ Hc) as [Hlt Hopen]. rewrite decide_False by done.
  eexists _, _. split; [done|]. split; [split|done]; simpl.
  - by rewrite !dom_delete_L, Hdom.
  - intros url' c'. rewrite lookup_delete. case_decide; [done|].
    intros Hc'. destruct (Hchan _ _ Hc') as [? ?]. split; [done|].
    rewrite elem_of_union, elem_of_singleton. intros [->|?]; [|done].
    by specialize (Hinj _ _ _ Hc Hc').
  - intros url1 url2 c'. rewrite !lookup_delete.
    repeat case_decide; try done. apply Hinj.
  - intros c'. rewrite elem_of_union, elem_of_singleton.
    intros [->|?]; [done|]. by apply Hclosed.
Qed.

Lemma Inv_checkURL rt url io :
  Inv rt → ∃ rt', checkURL url io rt = Ok tt rt' ∧ Inv rt'.
Proof.
  intros Hinv. rewrite checkURL_run.
  destruct (result io) as [err|code]; [by apply Inv_handleFailure|]. simpl.
  destruct (_ && _).
  - by apply Inv_handleSuccess, Inv_log.
  - by apply Inv_handleFailure, Inv_log.
Qed.

(** No engine call panics, and each keeps the invariants. *)
Lemma Inv_exec rt c :
  Inv rt → ∃ rt', exec c rt = Ok tt rt' ∧ Inv rt'.
Proof.
  intros Hinv. destruct c as [url i|url|url io|e|e|url now|url|url]; simpl.
  - destruct (Inv_AddMonitor rt url i Hinv) as (err & rt' & Hrun & ?).
    exists rt'. by rewrite mbind_run, Hrun.
  - destruct (Inv_RemoveMonitor rt url Hinv) as (err & rt' & Hrun & ?).
    exists rt'. by rewrite mbind_run, Hrun.
  - by apply Inv_checkURL.
  - eexists. split; [done|]. by apply Inv_log.
  - by apply Inv_handleFailure.
  - by apply Inv_handleSuccess.
  - exists rt. by rewrite mbind_run, GetLogs_run.
  - exists rt. by rewrite mbind_run, GetDowntimes_run.
Qed.

Lemma Inv_exec_all cs rt :
  Inv rt → ∃ rt', exec_all cs rt = Ok tt rt' ∧ Inv rt'.
Proof.
  revert rt. induction cs as [|c cs IH]; intros rt Hinv; simpl.
  - by exists rt.
  - destruct (Inv_exec rt c Hinv) as (rt1 & Hrun & Hinv1).
    destruct (IH rt1 Hinv1) as (rt' & Hrun' & Hinv').
    exists rt'. by rewrite mbind_run, Hrun.
Qed.

Lemma reachable_Inv rt : reachable rt → Inv rt.
Proof.
  induction 1 as [|rt c rt' _ IH Hstep]; [apply Inv_boot|].
  destruct (Inv_exec rt c IH) as (rt1 & Hrun & Hinv1). congruence.
Qed.

Lemma exec_all_reachable cs rt rt' :
  reachable rt → exec_all cs rt = Ok tt rt' → reachable rt'.
Proof.
  revert rt. induction cs as [|c cs IH]; intros rt Hreach; simpl.
  - by intros [= <-].
  - destruct (Inv_exec rt c (reachable_Inv rt Hreach)) as (rt1 & Hrun & _).
    rewrite mbind_run, Hrun. apply IH. by eapply reach_step.
Qed.
End reachable_invariant.

(** * The claims *)

Lemma wallToInternal_pos : (0 < time.wallToInternal)%Z.
Proof. reflexivity. Qed.

Lemma IsZero_iff t : time.IsZero t = true ↔ t = time.zero.
Proof.
  unfold time.IsZero, time.zero. rewrite Z.eqb_eq.
  destruct t as [ns|w m]; simpl.
  - split; [by intros ->|by intros [= ->]].
  - pose proof wallToInternal_pos. split; [lia|done].
Qed.

Lemma open_iff_zero d :
  DowntimeEntry.open d = true ↔ DowntimeEntry.EndTime d = time.zero.
Proof. apply IsZero_iff. Qed.

Lemma clamp_fits z :
  (time.minDuration ≤ z ≤ time.maxDuration)%Z → time.clamp z = z.
Proof.
  intros [Hlo Hhi]. unfold time.clamp.
  destruct (Z.ltb_spec z time.minDuration); [lia|].
  destruct (Z.ltb_spec time.maxDuration z); [lia|done].
Qed.

(** With a monotonic reading on both sides, [Sub] is their difference. *)
Lemma Sub_monotonic t u m m' :
  time.monotonic t = Some m → time.monotonic u = Some m' →
  time.Sub t u = time.clamp (m - m').
Proof. destruct t, u; simpl; by intros [= <-] [= <-]. Qed.

(** Without one on either side, it is the difference of the wall clocks. *)
Lemma Sub_wall t u :
  time.monotonic t = None ∨ time.monotonic u = None →
  time.Sub t u = time.clamp (time.wall t - time.wall u).
Proof. destruct t, u; simpl; by intros [|]. Qed.

(** C8: [GetLogs url] returns exactly the log entries whose URL is [url], in
    append order, and [GetDowntimes url] exactly the downtime records whose
    URL is [url], in creation order; the open records among them are the
    stored records of [url] with a zero end timestamp; either result may be
    empty, and both calls leave the whole state as it was. *)
Theorem GetLogs_GetDowntimes_filter url rt :
  GetLogs url rt = Ok (filter (λ e, LogEntry.URL e = url) (logs (um rt))) rt ∧
  GetDowntimes url rt
  = Ok (filter (λ d, DowntimeEntry.URL d = url) (downtimes (um rt))) rt ∧
  filter (λ d, DowntimeEntry.open d = true)
    (filter (λ d, DowntimeEntry.URL d = url) (downtimes (um rt)))
  = filter (λ d, DowntimeEntry.URL d = url ∧ DowntimeEntry.EndTime d = time.zero)
      (downtimes (um rt)) ∧
  GetLogs url boot = Ok [] boot ∧ GetDowntimes url boot = Ok [] boot.
Proof.
  split; [apply GetLogs_run|]. split; [apply GetDowntimes_run|].
  split; [|by rewrite GetLogs_run, GetDowntimes_run].
  induction (downtimes (um rt)) as [|d ds IH]; [done|].
  rewrite !filter_cons.
  destruct (decide (DowntimeEntry.URL d = url)) as [Hu|Hu].
  - rewrite filter_cons, IH.
    destruct (decide (DowntimeEntry.open d = true)) as [Ho|Ho].
    + rewrite decide_True; [done|]. split; [done|]. by apply open_iff_zero.
    + rewrite decide_False; [done|]. intros [_ ?]. by apply Ho, open_iff_zero.
  - rewrite IH, decide_False; [done|]. by intros [? _].
Qed.

(** C6: [AddMonitor url interval] returns an error exactly when [url] is
    already a key of the registry, and then changes nothing; otherwise it
    installs the entry for [url], with interval 30 seconds when [interval] is
    zero and [interval] itself otherwise, together with a cancellation handle,
    and leaves logs and downtimes as they were. *)
Theorem AddMonitor_spec url interval rt :
  ∃ err rt', AddMonitor url interval rt = Ok err rt' ∧
    (err ≠ None ↔ is_Some (monitors (um rt) !! url)) ∧
    (err ≠ None → rt' = rt) ∧
    (err = None →
       monitors (um rt')
       = <[url := {| Monitor.URL := url;
                     Monitor.Interval :=
                       if (interval =? 0)%Z then 30000000000%Z else interval |}]>
           (monitors (um rt)) ∧
       is_Some (stopChannels (um rt') !! url) ∧
       logs (um rt') = logs (um rt) ∧
       downtimes (um rt') = downtimes (um rt)).
Proof.
  rewrite AddMonitor_run.
  destruct (monitors (um rt) !! url) as [m|] eqn:Hm.
  - eexists _, _. split; [done|]. repeat split; try done; by eexists.
  - eexists _, _. split; [done|]. simpl. repeat split; try done.
    by rewrite lookup_insert_eq.
Qed.

(** C7: in a reachable state, [RemoveMonitor url] returns an error exactly
    when [url] is not registered, and then changes nothing; otherwise it
    closes and drops the cancellation handle of [url], drops the registry
    entry, and leaves logs and downtime records (open ones included) as they
    were. *)
Theorem RemoveMonitor_spec url rt :
  reachable rt →
  ∃ err rt', RemoveMonitor url rt = Ok err rt' ∧
    (err ≠ None ↔ monitors (um rt) !! url = None) ∧
    (err ≠ None → rt' = rt) ∧
    (err = None →
       monitors (um rt') = delete url (monitors (um rt)) ∧
       stopChannels (um rt') = delete url (stopChannels (um rt)) ∧
       (∃ stopChan, stopChannels (um rt) !! url = Some stopChan ∧
                    stopChan ∈ chanClosed rt') ∧
       logs (um rt') = logs (um rt) ∧
       downtimes (um rt') = downtimes (um rt)).
Proof.
  intros [[Hdom Hchan _ _] _]%reachable_Inv. rewrite RemoveMonitor_run.
  assert (monitors (um rt) !! url = None ↔ stopChannels (um rt) !! url = None)
    as Hagree by (by rewrite <- !not_elem_of_dom, Hdom).
  destruct (stopChannels (um rt) !! url) as [c|] eqn:Hc.
  - destruct (Hchan _ _ Hc) as [_ Hopen]. rewrite decide_False by done.
    eexists _, _. split; [done|]. simpl. split; [|split; [done|]].
    + split; [done|]. intros Hm. apply Hagree in Hm. done.
    + intros _. repeat split; try done.
      exists c. split; [done|]. rewrite elem_of_union, elem_of_singleton. by left.
  - eexists _, _. split; [done|]. split; [|done].
    split; [intros _; by apply Hagree|done].
Qed.

(** C10: after any sequence of engine calls from the start ([AddMonitor] and
    [RemoveMonitor] among them), the call sequence has returned and
    [monitors] and [stopChannels] have the same key set, so the membership
    test of [RemoveMonitor] on [stopChannels] agrees with membership in
    [monitors]. *)
Theorem monitors_stopChannels_same_keys (cs : list Call) :
  ∃ rt, exec_all cs boot = Ok tt rt ∧
    dom (monitors (um rt)) = dom (stopChannels (um rt)) ∧
    ∀ url, is_Some (stopChannels (um rt) !! url)
           ↔ is_Some (monitors (um rt) !! url).
Proof.
  destruct (Inv_exec_all cs boot Inv_boot) as (rt & Hrun & [[Hdom _ _ _] _]).
  exists rt. repeat split; try done; rewrite <- !elem_of_dom, Hdom; done.
Qed.

(** C2: after any sequence of engine calls from the start ([handleFailure]
    and [handleSuccess] in any order among them), the calls have all returned
    and every target has at most one downtime record with a zero end
    timestamp. *)
Theorem at_most_one_open_downtime (cs : list Call) :
  ∃ rt, exec_all cs boot = Ok tt rt ∧
    ∀ url, open_count url (downtimes (um rt)) ≤ 1.
Proof.
  destruct (Inv_exec_all cs boot Inv_boot) as (rt & Hrun & [_ Hdt]).
  exists rt. split; [done|]. intros url. by apply dt_inv_open_count.
Qed.

(** C3, as amended: [handleSuccess url] at clock reading [now] changes
    nothing but the downtime list.  When the last-created record of [url] is
    open, that record (the one at the last position holding a record of
    [url]) gets end timestamp [now] and as duration the text of
    [now.Sub(start)], and every other downtime record of any target stays as
    it was.  [now.Sub(start)] is the difference of the monotonic readings when
    both timestamps carry one, as readings of [time.Now()] do, and the
    difference of the wall-clock instants otherwise, whenever it fits a
    [Duration].  When [url] has no record, or its last-created one is closed,
    the downtime list is unchanged. *)
Theorem handleSuccess_spec url now rt :
  ∃ rt', handleSuccess url now rt = Ok tt rt' ∧
    rt' = with_um (set_downtimes (downtimes (um rt'))) rt ∧
    (∀ d, most_recent (downtimes (um rt)) url = Some d →
          DowntimeEntry.open d = true →
       ∃ p d',
         downtimes (um rt) !! p = Some d ∧
         (∀ j d0, p < j → downtimes (um rt) !! j = Some d0 →
                  DowntimeEntry.URL d0 ≠ url) ∧
         downtimes (um rt') = <[p := d']> (downtimes (um rt)) ∧
         length (downtimes (um rt')) = length (downtimes (um rt)) ∧
         (∀ j, j ≠ p → downtimes (um rt') !! j = downtimes (um rt) !! j) ∧
         d' = {| DowntimeEntry.URL := DowntimeEntry.URL d;
                 DowntimeEntry.StartTime := DowntimeEntry.StartTime d;
                 DowntimeEntry.EndTime := now;
                 DowntimeEntry.Duration :=
                   time.Duration_String
                     (time.Sub now (DowntimeEntry.StartTime d));
                 DowntimeEntry.StatusCode := DowntimeEntry.StatusCode d;
                 DowntimeEntry.ErrorDetail := DowntimeEntry.ErrorDetail d |} ∧
         (∀ m m', time.monotonic now = Some m →
                  time.monotonic (DowntimeEntry.StartTime d) = Some m' →
                  (time.minDuration ≤ m - m' ≤ time.maxDuration)%Z →
            DowntimeEntry.Duration d' = time.Duration_String (m - m')) ∧
         (time.monotonic now = None ∨
          time.monotonic (DowntimeEntry.StartTime d) = None →
          (time.minDuration
           ≤ time.wall now - time.wall (DowntimeEntry.StartTime d)
           ≤ time.maxDuration)%Z →
            DowntimeEntry.Duration d'
            = time.Duration_String
                (time.wall (DowntimeEntry.EndTime d')
                 - time.wall (DowntimeEntry.StartTime d')))) ∧
    ((records_of url (downtimes (um rt)) = [] ∨
      ∃ d, most_recent (downtimes (um rt)) url = Some d ∧
           DowntimeEntry.open d = false) →
       downtimes (um rt') = downtimes (um rt)).
Proof.
  rewrite handleSuccess_run. eexists. split; [done|].
  pose proof (getLastDowntime_most_recent (downtimes (um rt)) url) as Hmr.
  destruct rt as [[ms ls ds sc cl] cn cc gs]. simpl in *.
  split; [done|].
  destruct (getLastDowntime ds url) as [p|] eqn:Hp; simpl in Hmr.
  - destruct (getLastDowntime_Some _ _ _ Hp) as (d & Hd & _ & Hlast).
    rewrite Hd in *. split.
    + intros d0 Hd0 Hopen. assert (d0 = d) as -> by congruence.
      rewrite Hopen. exists p, (closed_at now d).
      split; [done|]. split; [exact Hlast|]. split; [done|].
      split; [by rewrite length_insert|].
      split; [|split; [done|split]].
      * intros j Hj. by rewrite list_lookup_insert_ne.
      * intros m m' Hm Hm' Hfit. simpl.
        by rewrite (Sub_monotonic _ _ m m'), clamp_fits.
      * intros Hwall Hfit. simpl. by rewrite Sub_wall, clamp_fits.
    + intros [Hnone%most_recent_None | (d0 & Hd0 & Hclosed)]; [congruence|].
      assert (d0 = d) as -> by congruence. by rewrite Hclosed.
  - split; [|done]. intros d0 Hd0. congruence.
Qed.

(** C3 as it was stated fails where the two clocks disagree.  The record
    open since [t0] is closed at [t0_drifted]: the stored duration is the
    monotonic 20.247694 ms, while end timestamp minus start timestamp is
    20.247684 ms. *)
Lemma handleSuccess_duration_not_timestamp_difference :
  ∃ rt' d d',
    most_recent (downtimes (um down_since_t0)) target = Some d ∧
    DowntimeEntry.open d = true ∧
    handleSuccess target t0_drifted down_since_t0 = Ok tt rt' ∧
    downtimes (um rt') = [d'] ∧
    DowntimeEntry.StartTime d' = t0 ∧ DowntimeEntry.EndTime d' = t0_drifted ∧
    time.Duration_String
      (time.wall (DowntimeEntry.EndTime d') - time.wall (DowntimeEntry.StartTime d'))
    = "20.247684ms" ∧
    DowntimeEntry.Duration d' = "20.247694ms" ∧
    DowntimeEntry.Duration d'
    ≠ time.Duration_String
        (time.wall (DowntimeEntry.EndTime d')
         - time.wall (DowntimeEntry.StartTime d')).
Proof.
  eexists _, _, _. split; [vm_compute; reflexivity|].
  split; [reflexivity|]. split; [vm_compute; reflexivity|].
  split; [reflexivity|]. split; [reflexivity|]. split; [reflexivity|].
  split; [vm_compute; reflexivity|]. split; [vm_compute; reflexivity|].
  vm_compute. discriminate.
Qed.

(** C4: [handleFailure entry] appends [entry] to the log.  When the
    last-created downtime record of the entry's target is open, the downtime
    list is unchanged.  When the target has no downtime record, or its
    last-created one is closed, exactly one record is appended to the downtime
    list: an open one, with the entry's URL, timestamp (as start), status code
    and error. *)
Theorem handleFailure_spec entry rt :
  ∃ rt', handleFailure entry rt = Ok tt rt' ∧
    logs (um rt') = logs (um rt) ++ [entry] ∧
    (∀ d, most_recent (downtimes (um rt)) (LogEntry.URL entry) = Some d →
          DowntimeEntry.open d = true →
       downtimes (um rt') = downtimes (um rt)) ∧
    ((records_of (LogEntry.URL entry) (downtimes (um rt)) = [] ∨
      ∃ d, most_recent (downtimes (um rt)) (LogEntry.URL entry) = Some d ∧
           DowntimeEntry.open d = false) →
       downtimes (um rt')
       = downtimes (um rt) ++
           [{| DowntimeEntry.URL := LogEntry.URL entry;
               DowntimeEntry.StartTime := LogEntry.Timestamp entry;
               DowntimeEntry.EndTime := time.zero;
               DowntimeEntry.Duration := "";
               DowntimeEntry.StatusCode := LogEntry.StatusCode entry;
               DowntimeEntry.ErrorDetail := LogEntry.Error entry |}] ∧
       DowntimeEntry.open
         {| DowntimeEntry.URL := LogEntry.URL entry;
            DowntimeEntry.StartTime := LogEntry.Timestamp entry;
            DowntimeEntry.EndTime := time.zero;
            DowntimeEntry.Duration := "";
            DowntimeEntry.StatusCode := LogEntry.StatusCode entry;
            DowntimeEntry.ErrorDetail := LogEntry.Error entry |} = true).
Proof.
  rewrite handleFailure_run. eexists. split; [done|]. simpl.
  split; [done|]. unfold is_down. split.
  - intros d -> ->. done.
  - intros [->%most_recent_None | (d & -> & ->)]; done.
Qed.

(** The text of a [*url.Error] is never empty: whatever its parts, the
    format puts a space and a colon between them. *)
Lemma Error_text_nonempty (e : url.Error) : url.Error_text e ≠ "".
Proof. unfold url.Error_text. by destruct (url.Op e). Qed.

(** C5: [checkURL] always returns, and every log entry it appends is for its
    target.  After a transport failure the entry has status code 0, success
    flag false and as description the text of the client's error, which is
    not empty.  After a completed response the entry has the response's
    status code, an empty description, and success flag true exactly when the
    code is in [200, 300). *)
Theorem checkURL_classifies url io rt :
  ∃ rt' new, checkURL url io rt = Ok tt rt' ∧
    logs (um rt') = logs (um rt) ++ new ∧ new ≠ [] ∧
    Forall (λ e,
      LogEntry.URL e = url ∧
      match result io with
      | GetErr err =>
          LogEntry.StatusCode e = 0%Z ∧ LogEntry.Success e = false ∧
          LogEntry.Error e = url.Error_text err ∧ LogEntry.Error e ≠ ""
      | GetResp code =>
          LogEntry.StatusCode e = code ∧ LogEntry.Error e = "" ∧
          (LogEntry.Success e = true ↔ (200 ≤ code < 300)%Z)
      end) new.
Proof.
  rewrite checkURL_run. destruct (result io) as [err|code].
  - rewrite handleFailure_run. eexists _, [_]. split; [done|]. simpl.
    split; [done|]. split; [done|]. apply Forall_singleton. simpl.
    do 4 (split; [done|]). apply Error_text_nonempty.
  - assert (((200 <=? code)%Z && (code <? 300)%Z = true) ↔ (200 ≤ code < 300)%Z)
      as Hrange by (rewrite andb_true_iff, Z.leb_le, Z.ltb_lt; done).
    simpl. destruct (_ && _) eqn:Hok.
    + rewrite handleSuccess_run. eexists _, [_]. split; [done|]. simpl.
      split; [done|]. split; [done|].
      apply Forall_singleton. simpl. do 3 (split; [done|]). exact Hrange.
    + rewrite handleFailure_run. eexists _, [_; _]. split; [done|]. simpl.
      split; [by rewrite <- app_assoc|]. split; [done|].
      apply Forall_cons_2; [|apply Forall_singleton];
        simpl; do 3 (split; [done|]); exact Hrange.
Qed.

(** ** Where the code departs from the specification *)

(** A completed response outside [200, 300) is logged twice: by [checkURL]
    itself and again by [handleFailure]. *)
Lemma checkURL_failed_status_logs_twice url io code rt :
  result io = GetResp code → ¬ (200 ≤ code < 300)%Z →
  ∃ rt' e, checkURL url io rt = Ok tt rt' ∧
    LogEntry.StatusCode e = code ∧
    logs (um rt') = logs (um rt) ++ [e; e].
Proof.
  intros Hres Hout. rewrite checkURL_run, Hres. simpl.
  destruct (_ && _) eqn:Hok.
  { apply andb_true_iff in Hok as [?%Z.leb_le ?%Z.ltb_lt]. lia. }
  rewrite handleFailure_run.
  eexists _, (LogEntry.Build_t _ _ _ _ _ _). split; [done|]. simpl.
  split; [done|]. by rewrite <- app_assoc.
Qed.

(** C1, at the input of its scenario: a target answers 500, 500, then 200.
    [GetLogs] then returns five entries, with success flags false, false,
    false, false, true: each 500 was logged twice. *)
Theorem scenario_500_500_200_logs :
  ∃ rt l,
    exec_all [CAdd target time.Second; CCheck target (answered 500 t0);
              CCheck target (answered 500 t1); CCheck target (answered 200 t2)]
      boot = Ok tt rt ∧
    GetLogs target rt = Ok l rt ∧
    LogEntry.Success <$> l = [false; false; false; false; true] ∧
    length l = 5.
Proof.
  eexists _, _. split; [vm_compute; reflexivity|].
  split; [vm_compute; reflexivity|]. by split.
Qed.

(** A negative interval is registered as it is, and the poller started for
    it panics in [time.NewTicker]. *)
Lemma AddMonitor_negative_interval url interval rt :
  (interval < 0)%Z → monitors (um rt) !! url = None →
  ∃ rt' g, AddMonitor url interval rt = Ok None rt' ∧
    monitors (um rt') !! url
    = Some {| Monitor.URL := url; Monitor.Interval := interval |} ∧
    goroutines rt' = goroutines rt ++ [g] ∧
    ∀ sched rt1,
      run_goroutine g sched rt1 = Panic "non-positive interval for NewTicker".
Proof.
  intros Hneg Hfree. rewrite AddMonitor_run, Hfree.
  destruct (Z.eqb_spec interval 0) as [|_]; [lia|].
  eexists _, _. split; [done|]. simpl. split; [by rewrite lookup_insert_eq|].
  split; [done|]. intros sched rt1.
  unfold run_goroutine, monitorURL, time.NewTicker. simpl.
  by destruct (Z.leb_spec interval 0); [|lia].
Qed.

(** C9, at a request with interval -1: the handler answers 201, the engine
    has registered the target with an interval of minus one second, and the
    poller it started panics whatever the scheduler does. *)
Theorem HandleAddMonitor_negative_interval :
  ∃ rt g,
    HandleAddMonitor negative_request boot
    = Ok {| Status := 201; Text := "" |} rt ∧
    monitors (um rt) !! target
    = Some {| Monitor.URL := target; Monitor.Interval := -1000000000 |} ∧
    goroutines rt = [g] ∧
    ∀ sched rt1,
      run_goroutine g sched rt1 = Panic "non-positive interval for NewTicker".
Proof.
  eexists _, _. split; [vm_compute; reflexivity|].
  split; [vm_compute; reflexivity|]. split; [reflexivity|].
  intros sched rt1. reflexivity.
Qed.

(** ** The statements at concrete inputs *)

(** [down_since_t0] is what registering [target] and one timed-out probe
    make of the start state. *)
Lemma down_since_t0_run :
  exec_all [CAdd target time.Second; CCheck target (timed_out t0)] boot
  = Ok tt down_since_t0.
Proof. vm_compute. reflexivity. Qed.

(** Removing the registered, down target succeeds and keeps its open
    downtime record; removing an unknown target is refused and changes
    nothing. *)
Lemma RemoveMonitor_spec_witness :
  reachable down_since_t0 ∧
  (∃ rt', RemoveMonitor target down_since_t0 = Ok None rt' ∧
          monitors (um rt') !! target = None ∧
          downtimes (um rt') = downtimes (um down_since_t0)) ∧
  (∃ msg, RemoveMonitor other down_since_t0 = Ok (Some msg) down_since_t0).
Proof.
  assert (reachable down_since_t0) as Hreach.
  { apply (exec_all_reachable
             [CAdd target time.Second; CCheck target (timed_out t0)] boot).
    - constructor.
    - vm_compute. reflexivity. }
  split; [exact Hreach|]. split.
  - destruct (RemoveMonitor_spec target down_since_t0 Hreach)
      as (err & rt' & Hrun & Herr & _ & Hok).
    destruct err as [msg|].
    + assert (monitors (um down_since_t0) !! target = None) as Habs
        by (apply Herr; discriminate).
      vm_compute in Habs. discriminate Habs.
    + exists rt'. split; [exact Hrun|].
      destruct (Hok eq_refl) as (Hm & _ & _ & _ & Hd).
      split; [|exact Hd]. rewrite Hm. apply lookup_delete_eq.
  - destruct (RemoveMonitor_spec other down_since_t0 Hreach)
      as (err & rt' & Hrun & Herr & Hsame & _).
    destruct err as [msg|].
    + exists msg. rewrite Hrun. f_equal. apply Hsame. discriminate.
    + exfalso. apply (proj2 Herr); reflexivity.
Defined.

(** A success at [t2] closes the downtime open since [t0]: two seconds. *)
Lemma handleSuccess_spec_witness :
  ∃ rt', handleSuccess target t2 down_since_t0 = Ok tt rt' ∧
    DowntimeEntry.EndTime <$> downtimes (um rt') = [t2] ∧
    DowntimeEntry.Duration <$> downtimes (um rt') = ["2s"].
Proof.
  destruct (handleSuccess_spec target t2 down_since_t0)
    as (rt' & Hrun & _ & Hclose & _).
  exists rt'. split; [exact Hrun|].
  destruct (Hclose _ eq_refl eq_refl) as (p & d' & Hp & _ & Hds & _ & _ & Hd' & _).
  destruct p as [|p]; [|destruct p; discriminate Hp].
  rewrite Hds, Hd'. split; reflexivity.
Defined.

(** A failure of the target that is down adds no record; a failure of a
    target without records adds one. *)
Lemma handleFailure_spec_witness :
  (∃ rt', handleFailure (unavailable target t1) down_since_t0 = Ok tt rt' ∧
          downtimes (um rt') = downtimes (um down_since_t0)) ∧
  (∃ rt', handleFailure (unavailable other t1) down_since_t0 = Ok tt rt' ∧
          DowntimeEntry.URL <$> downtimes (um rt') = [target; other] ∧
          DowntimeEntry.StartTime <$> downtimes (um rt') = [t0; t1]).
Proof.
  split.
  - destruct (handleFailure_spec (unavailable target t1) down_since_t0)
      as (rt' & Hrun & _ & Hdown & _).
    exists rt'. split; [exact Hrun|]. exact (Hdown _ eq_refl eq_refl).
  - destruct (handleFailure_spec (unavailable other t1) down_since_t0)
      as (rt' & Hrun & _ & _ & Hup).
    exists rt'. split; [exact Hrun|].
    destruct (Hup (or_introl eq_refl)) as [-> _]. split; reflexivity.
Defined.

(** A timed-out probe: what gets logged has status 0, no success and the
    text of the client's error. *)
Lemma checkURL_classifies_witness :
  ∃ rt' new, checkURL target (timed_out t0) boot = Ok tt rt' ∧
    logs (um rt') = new ∧ new ≠ [] ∧
    Forall (λ e, LogEntry.StatusCode e = 0%Z ∧ LogEntry.Success e = false ∧
                 LogEntry.Error e = timeout_text) new.
Proof.
  destruct (checkURL_classifies target (timed_out t0) boot)
    as (rt' & new & Hrun & Hlogs & Hne & Hall).
  exists rt', new. split; [exact Hrun|]. split; [exact Hlogs|].
  split; [exact Hne|].
  eapply Forall_impl; [exact Hall|]. simpl.
  intros e (_ & Hcode & Hfail & Htext & _).
  split; [exact Hcode|]. split; [exact Hfail|]. exact Htext.
Defined.

(** Registering with interval zero stores 30 seconds; registering the same
    target again is refused and changes nothing. *)
Lemma AddMonitor_spec_witness :
  (∃ rt', AddMonitor target 0 boot = Ok None rt' ∧
          Monitor.Interval <$> monitors (um rt') !! target
          = Some 30000000000%Z) ∧
  (∃ msg, AddMonitor target 0 down_since_t0 = Ok (Some msg) down_since_t0).
Proof.
  split.
  - destruct (AddMonitor_spec target 0 boot) as (err & rt' & Hrun & Herr & _ & Hok).
    destruct err as [msg|].
    + exfalso. assert (is_Some (monitors (um boot) !! target)) as [m Hm]
        by (apply Herr; discriminate).
      vm_compute in Hm. discriminate Hm.
    + exists rt'. split; [exact Hrun|].
      destruct (Hok eq_refl) as (-> & _). by rewrite lookup_insert_eq.
  - destruct (AddMonitor_spec target 0 down_since_t0)
      as (err & rt' & Hrun & Herr & Hsame & _).
    destruct err as [msg|].
    + exists msg. rewrite Hrun. f_equal. apply Hsame. discriminate.
    + exfalso. apply (proj2 Herr); [|reflexivity]. by eexists.
Defined.

(** * Further properties *)

(** ** Calls as sequences of atomic transitions *)

Section transitions.
Context (L F : LogEntry.t → Prop).
Implicit Types (rt : Runtime) (e : LogEntry.t).

Lemma handleFailure_steps e rt rt' :
  L e → F e → handleFailure e rt = Ok tt rt' → rtc (step L F) rt rt'.
Proof.
  intros HL HF. rewrite handleFailure_run. intros [= <-].
  eapply rtc_l; [by apply step_log|].
  destruct rt as [u cn cc gs]. unfold with_um. simpl.
  destruct (is_down (downtimes u) (LogEntry.URL e)) eqn:Hdown.
  - apply rtc_refl.
  - apply rtc_once.
    apply (step_open L F
             {| um := set_logs (logs u ++ [e]) u; chanNext := cn;
                chanClosed := cc; goroutines := gs |} e); [done| |done].
    simpl. apply elem_of_app. right. by apply list_elem_of_singleton.
Qed.

Lemma handleSuccess_steps url now rt rt' :
  handleSuccess url now rt = Ok tt rt' → rtc (step L F) rt rt'.
Proof.
  rewrite handleSuccess_run. intros [= <-].
  destruct rt as [[ms ls ds sc cl] cn cc gs]. unfold with_um. simpl.
  destruct (getLastDowntime ds url) as [p|] eqn:Hp; [|apply rtc_refl].
  destruct (ds !! p) as [d|] eqn:Hd; [|apply rtc_refl].
  destruct (DowntimeEntry.open d) eqn:Hopen; [|apply rtc_refl].
  apply rtc_once.
  by apply (step_close L F
              {| um := {| monitors := ms; logs := ls; downtimes := ds;
                          stopChannels := sc; client := cl |};
                 chanNext := cn; chanClosed := cc; goroutines := gs |}
              url now p d).
Qed.

Lemma checkURL_steps url io rt rt' :
  L (entry_of url io) → (failing io = true → F (entry_of url io)) →
  checkURL url io rt = Ok tt rt' → rtc (step L F) rt rt'.
Proof.
  unfold entry_of, failing. rewrite checkURL_run.
  destruct (result io) as [err|code]; intros HL HF.
  - apply handleFailure_steps; auto.
  - simpl. destruct (_ && _) eqn:Hok; intros Hrun.
    + eapply rtc_l; [by apply step_log|]. by eapply handleSuccess_steps.
    + eapply rtc_l; [by apply step_log|].
      eapply handleFailure_steps; [done|by apply HF|done].
Qed.

Lemma exec_steps c rt rt' :
  call_ok L F c → exec c rt = Ok tt rt' → rtc (step L F) rt rt'.
Proof.
  destruct c as [url i|url|url io|e|e|url now|url|url]; simpl.
  - intros _. rewrite mbind_run, AddMonitor_run.
    destruct (monitors (um rt) !! url) eqn:Hm; intros [= <-]; [apply rtc_refl|].
    apply rtc_once, step_add; [done|].
    by destruct (Z.eqb_spec i 0).
  - intros _. rewrite mbind_run, RemoveMonitor_run.
    destruct (stopChannels (um rt) !! url) as [c|] eqn:Hc.
    2:{ intros [= <-]. apply rtc_refl. }
    case_decide; [done|]. intros [= <-]. by apply rtc_once, step_remove.
  - intros [HL HF]. by apply checkURL_steps.
  - intros HL [= <-]. by apply rtc_once, step_log.
  - intros [HL HF]. by apply handleFailure_steps.
  - intros _. apply handleSuccess_steps.
  - intros _. rewrite mbind_run, GetLogs_run. intros [= <-]. apply rtc_refl.
  - intros _. rewrite mbind_run, GetDowntimes_run. intros [= <-]. apply rtc_refl.
Qed.

Lemma exec_all_steps cs rt rt' :
  Forall (call_ok L F) cs → exec_all cs rt = Ok tt rt' → rtc (step L F) rt rt'.
Proof.
  intros Hok. revert rt. induction Hok as [|c cs Hc _ IH]; intros rt; simpl.
  - intros [= <-]. apply rtc_refl.
  - rewrite mbind_run. destruct (exec c rt) as [[] rt1|] eqn:Hrun; [|done].
    intros Hrest. etrans; [by eapply exec_steps|by apply IH].
Qed.
End transitions.

Lemma call_ok_True cs : Forall (call_ok (λ _, True) (λ _, True)) cs.
Proof. apply Forall_forall. intros c _. by destruct c. Qed.

Lemma steps_inv L F (P : Runtime → Prop) :
  (∀ rt rt', P rt → step L F rt rt' → P rt') →
  ∀ rt rt', rtc (step L F) rt rt' → P rt → P rt'.
Proof.
  intros Hstep rt rt' Hrtc. induction Hrtc as [|rt rt1 rt' H1 _ IH]; [done|].
  intros HP. apply IH. by eapply Hstep.
Qed.

(** ** Logs and downtime records are history *)

Lemma same_incident_refl d : same_incident d d.
Proof. by repeat split. Qed.

Lemma same_incident_trans d1 d2 d3 :
  same_incident d1 d2 → same_incident d2 d3 → same_incident d1 d3.
Proof.
  intros (Hu & Hs & Hc & He & Hfix) (Hu' & Hs' & Hc' & He' & Hfix').
  repeat split; try congruence.
  intros Hclosed. specialize (Hfix Hclosed). subst d2. by apply Hfix'.
Qed.

Lemma history_kept_refl rt : history_kept rt rt.
Proof.
  split; [done|]. intros p d Hp. exists d. split; [done|].
  apply same_incident_refl.
Qed.

Lemma history_kept_trans rt1 rt2 rt3 :
  history_kept rt1 rt2 → history_kept rt2 rt3 → history_kept rt1 rt3.
Proof.
  intros [Hl Hd] [Hl' Hd']. split; [by etrans|].
  intros p d Hp. destruct (Hd p d Hp) as (d2 & Hp2 & Hsame).
  destruct (Hd' p d2 Hp2) as (d3 & Hp3 & Hsame').
  exists d3. split; [done|]. by eapply same_incident_trans.
Qed.

Lemma step_history L F rt rt' : step L F rt rt' → history_kept rt rt'.
Proof.
  destruct 1 as [rt e _|rt e _ _ _|rt url now p0 d0 Hlast Hd0 Hopen
                |rt url i _ _|rt url c _ _]; split; simpl; try done.
  - by apply prefix_app_r.
  - intros p d Hp. exists d. split; [done|]. apply same_incident_refl.
  - intros p d Hp. exists d. split; [by apply lookup_app_l_Some|].
    apply same_incident_refl.
  - intros p d Hp. destruct (decide (p0 = p)) as [<-|Hne].
    + exists (closed_at now d0).
      split; [apply list_lookup_insert_eq; by eapply lookup_lt_Some|].
      assert (d = d0) as -> by congruence.
      repeat split. congruence.
    + exists d. split; [by rewrite list_lookup_insert_ne|].
      apply same_incident_refl.
  - intros p d Hp. exists d. split; [done|]. apply same_incident_refl.
  - intros p d Hp. exists d. split; [done|]. apply same_incident_refl.
Qed.

Lemma steps_history L F rt rt' : rtc (step L F) rt rt' → history_kept rt rt'.
Proof.
  induction 1 as [|rt rt1 rt' H1 _ IH]; [apply history_kept_refl|].
  eapply history_kept_trans; [by eapply step_history|done].
Qed.

Lemma exec_all_history cs rt rt' :
  exec_all cs rt = Ok tt rt' → history_kept rt rt'.
Proof.
  intros Hrun. eapply steps_history, exec_all_steps; [|done].
  apply call_ok_True.
Qed.

(** X2: the log is append-only.  Whatever calls are made, the log before is a
    prefix of the log after, and so is, for every target, what [GetLogs]
    returned before of what it returns after. *)
Theorem logs_append_only cs rt rt' url :
  exec_all cs rt = Ok tt rt' →
  logs (um rt) `prefix_of` logs (um rt') ∧
  ∃ l l', GetLogs url rt = Ok l rt ∧ GetLogs url rt' = Ok l' rt' ∧
          l `prefix_of` l'.
Proof.
  intros [[k Hk] _]%exec_all_history. split; [by exists k|].
  rewrite !GetLogs_run. eexists _, _. split; [done|]. split; [done|].
  rewrite Hk, filter_app. by apply prefix_app_r.
Qed.

(** X3: downtime records are never removed or moved, the fields that
    identify the incident (URL, start, status code, error detail) never
    change, and a closed record never changes at all. *)
Theorem downtime_records_kept cs rt rt' p d :
  exec_all cs rt = Ok tt rt' →
  downtimes (um rt) !! p = Some d →
  ∃ d', downtimes (um rt') !! p = Some d' ∧
    DowntimeEntry.URL d' = DowntimeEntry.URL d ∧
    DowntimeEntry.StartTime d' = DowntimeEntry.StartTime d ∧
    DowntimeEntry.StatusCode d' = DowntimeEntry.StatusCode d ∧
    DowntimeEntry.ErrorDetail d' = DowntimeEntry.ErrorDetail d ∧
    (DowntimeEntry.open d = false → d' = d).
Proof.
  intros [_ Hkept]%exec_all_history Hp. by apply Hkept.
Qed.

(** ** What the log and the downtime records say about each other *)

Section logged_and_opened.
Context (L F : LogEntry.t → Prop).


End logged_and_opened.






Lemma steps_closed_duration L F rt rt' :
  rtc (step L F) rt rt' →
  (∀ p d, downtimes (um rt) !! p = Some d → DowntimeEntry.open d = false →
     DowntimeEntry.Duration d
     = time.Duration_String
         (time.Sub (DowntimeEntry.EndTime d) (DowntimeEntry.StartTime d))) →
  ∀ p d, downtimes (um rt') !! p = Some d → DowntimeEntry.open d = false →
     DowntimeEntry.Duration d
     = time.Duration_String
         (time.Sub (DowntimeEntry.EndTime d) (DowntimeEntry.StartTime d)).
Proof.
  apply (steps_inv L F (λ rt, ∀ p d, downtimes (um rt) !! p = Some d →
           DowntimeEntry.open d = false →
           DowntimeEntry.Duration d
           = time.Duration_String
               (time.Sub (DowntimeEntry.EndTime d) (DowntimeEntry.StartTime d)))).
  clear. intros rt rt' Hinv Hstep.
  destruct Hstep as [rt e _|rt e _ _ _|rt url now p0 d0 _ Hd0 _| |];
    simpl; try done; intros p d Hp Hclosed.
  - apply lookup_app_Some in Hp as [Hp|[_ Hp]]; [by apply (Hinv p)|].
    apply list_lookup_singleton_Some in Hp as [_ <-]. done.
  - destruct (decide (p0 = p)) as [<-|Hne].
    + rewrite list_lookup_insert_eq in Hp by (by eapply lookup_lt_Some).
      by injection Hp as <-.
    + rewrite list_lookup_insert_ne in Hp by done. by apply (Hinv p).
Qed.

(** X6: after any sequence of calls from the start, each downtime record
    with an end time carries as duration the text of [EndTime.Sub(StartTime)];
    when both timestamps carry a monotonic reading, as readings of
    [time.Now()] do, that is the text of the difference of the monotonic
    readings (clamped to a [Duration]), whatever the wall clocks say. *)
Theorem closed_records_have_their_duration cs :
  ∃ rt, exec_all cs boot = Ok tt rt ∧
    ∀ d, d ∈ downtimes (um rt) → DowntimeEntry.EndTime d ≠ time.zero →
      DowntimeEntry.Duration d
      = time.Duration_String
          (time.Sub (DowntimeEntry.EndTime d) (DowntimeEntry.StartTime d)) ∧
      ∀ m m', time.monotonic (DowntimeEntry.EndTime d) = Some m →
              time.monotonic (DowntimeEntry.StartTime d) = Some m' →
        DowntimeEntry.Duration d = time.Duration_String (time.clamp (m - m')).
Proof.
  destruct (Inv_exec_all cs boot Inv_boot) as (rt & Hrun & _).
  exists rt. split; [done|]. intros d [p Hp]%list_elem_of_lookup Hend.
  assert (DowntimeEntry.open d = false) as Hopen.
  { destruct (DowntimeEntry.open d) eqn:Ho; [|done].
    by apply open_iff_zero in Ho. }
  assert (DowntimeEntry.Duration d
          = time.Duration_String
              (time.Sub (DowntimeEntry.EndTime d) (DowntimeEntry.StartTime d)))
    as Hdur.
  { eapply (steps_closed_duration _ _ boot rt); [|  |done..].
    - eapply exec_all_steps; [apply call_ok_True|done].
    - intros q d0 Hq. simpl in Hq. by rewrite lookup_nil in Hq. }
  split; [done|]. intros m m' Hm Hm'.
  by rewrite Hdur, (Sub_monotonic _ _ m m').
Qed.

(** ** Pollers and the registry *)

Lemma pollers_inv_boot : pollers_inv boot.
Proof.
  split; simpl; done.
Qed.

Lemma step_pollers_inv L F rt rt' :
  pollers_inv rt → step L F rt rt' → pollers_inv rt'.
Proof.
  intros [Hnext Hstop Hhandle Hlive Hkeys] Hstep.
  destruct Hstep as [rt e _|rt e _ _ _|rt url now p0 d0 _ _ _
                    |rt url i Hfree Hi|rt url c Hc Hopen];
    try (split; simpl; done).
  - assert (stopChannels (um rt) !! url = None) as Hfree' by (by apply Hkeys).
    split; simpl.
    + rewrite length_app. simpl. lia.
    + intros j g Hj. apply lookup_app_Some in Hj as [Hj|[Hle Hj]]; [by eapply Hstop|].
      apply list_lookup_singleton_Some in Hj as [Hj <-]. simpl.
      split; [lia|done].
    + intros url' c. rewrite lookup_insert. case_decide as Hu.
      * intros [= <-]. subst url'. eexists. rewrite Hnext.
        split; [apply list_lookup_middle; done|]. simpl.
        split; [done|]. by rewrite lookup_insert_eq.
      * intros Hc. destruct (Hhandle _ _ Hc) as (g & Hg & Hgu & Hm).
        exists g. split; [by apply lookup_app_l_Some|]. split; [done|].
        by rewrite lookup_insert_ne.
    + intros j g Hj. apply lookup_app_Some in Hj as [Hj|[Hle Hj]].
      * destruct (Hlive _ _ Hj) as [?|Hh]; [by left|]. right.
        rewrite lookup_insert_ne; [done|]. intros Heq. rewrite <- Heq in Hh.
        unfold chan in *. congruence.
      * apply list_lookup_singleton_Some in Hj as [Hj <-]. simpl. right.
        rewrite lookup_insert_eq. f_equal. lia.
    + intros url'. rewrite !lookup_insert. case_decide; [done|]. apply Hkeys.
  - split; simpl; try done.
    + intros url' c'. rewrite lookup_delete. case_decide as Hu; [done|].
      intros Hc'. destruct (Hhandle _ _ Hc') as (g & Hg & Hgu & Hm).
      exists g. split; [done|]. split; [done|]. by rewrite lookup_delete_ne.
    + intros j g Hj. destruct (Hlive _ _ Hj) as [?|Hh].
      * left. apply elem_of_union. by right.
      * destruct (decide (url = g_url g)) as [->|Hne].
        -- left. apply elem_of_union. left. apply elem_of_singleton.
           unfold chan in *. congruence.
        -- right. by rewrite lookup_delete_ne.
    + intros url'. rewrite !lookup_delete. case_decide; [done|]. apply Hkeys.
Qed.

Lemma exec_all_pollers_inv cs rt rt' :
  pollers_inv rt → exec_all cs rt = Ok tt rt' → pollers_inv rt'.
Proof.
  intros Hinv Hrun.
  eapply (steps_inv (λ _, True) (λ _, True) pollers_inv); [|  |done].
  - intros ??. apply step_pollers_inv.
  - eapply exec_all_steps; [apply call_ok_True|done].
Qed.

Lemma reachable_pollers_inv rt : reachable rt → pollers_inv rt.
Proof.
  induction 1 as [|rt c rt' _ IH Hstep]; [apply pollers_inv_boot|].
  apply (exec_all_pollers_inv [c] rt rt' IH).
  simpl. by rewrite mbind_run, Hstep.
Qed.

(** X9: after any sequence of calls from the start, every registered target
    is stored under its own URL with a non-zero interval, holds a
    cancellation handle that is not closed, and has a poller that was started
    for it with that interval and that handle. *)
Theorem registered_target_has_poller cs :
  ∃ rt, exec_all cs boot = Ok tt rt ∧
    ∀ url m, monitors (um rt) !! url = Some m →
      Monitor.URL m = url ∧ Monitor.Interval m ≠ 0%Z ∧
      ∃ c g, stopChannels (um rt) !! url = Some c ∧ (c ∉ chanClosed rt) ∧
             g ∈ goroutines rt ∧ g_url g = url ∧
             g_interval g = Monitor.Interval m ∧ g_stop g = c.
Proof.
  destruct (Inv_exec_all cs boot Inv_boot) as (rt & Hrun & [[_ Hchan _ _] _]).
  exists rt. split; [done|]. intros url m Hm.
  destruct (exec_all_pollers_inv cs boot rt pollers_inv_boot Hrun)
    as [_ Hstop Hhandle _ Hkeys].
  destruct (stopChannels (um rt) !! url) as [c|] eqn:Hc.
  2:{ apply Hkeys in Hc. unfold chan in *. congruence. }
  destruct (Hhandle _ _ Hc) as (g & Hg & Hgu & Hm').
  rewrite Hm in Hm'. injection Hm' as ->. simpl.
  destruct (Hstop _ _ Hg) as [Hgs Hgi].
  split; [done|]. split; [done|]. exists c, g.
  split; [done|]. split; [by apply (Hchan url)|].
  split; [by eapply list_elem_of_lookup_2|]. done.
Qed.

(** X10: after any sequence of calls from the start, every poller ever started
    either has been told to stop (its channel is closed) or is the poller of
    a registered target, waiting on that target's handle; and no two pollers
    share a channel. *)
Theorem pollers_cancelled_or_registered cs :
  ∃ rt, exec_all cs boot = Ok tt rt ∧
    (∀ g, g ∈ goroutines rt →
       g_stop g ∈ chanClosed rt ∨
       (stopChannels (um rt) !! g_url g = Some (g_stop g) ∧
        is_Some (monitors (um rt) !! g_url g))) ∧
    (∀ i j g g', goroutines rt !! i = Some g → goroutines rt !! j = Some g' →
                 g_stop g = g_stop g' → i = j).
Proof.
  destruct (Inv_exec_all cs boot Inv_boot) as (rt & Hrun & _).
  exists rt. split; [done|].
  destruct (exec_all_pollers_inv cs boot rt pollers_inv_boot Hrun)
    as [_ Hstop _ Hlive Hkeys].
  split.
  - intros g [i Hi]%list_elem_of_lookup.
    destruct (Hstop _ _ Hi) as [-> _].
    destruct (Hlive _ _ Hi) as [?|Hh]; [by left|]. right. split; [done|].
    destruct (monitors (um rt) !! g_url g) eqn:Hm; [by eexists|].
    apply Hkeys in Hm. unfold chan in *. congruence.
  - intros i j g g' Hi Hj Heq.
    destruct (Hstop _ _ Hi) as [<- _]. destruct (Hstop _ _ Hj) as [<- _]. done.
Qed.

(** X11: once [RemoveMonitor url] has succeeded, every poller ever started for
    [url] has been told to stop, the one just cancelled and those of earlier
    registrations alike. *)
Theorem RemoveMonitor_cancels_all_pollers url rt rt' :
  reachable rt → RemoveMonitor url rt = Ok None rt' →
  ∀ g, g ∈ goroutines rt' → g_url g = url → g_stop g ∈ chanClosed rt'.
Proof.
  intros Hreach Hrun g [i Hi]%list_elem_of_lookup Hu.
  assert (reachable rt') as Hreach'.
  { apply (reach_step rt (CRemove url)); [done|].
    simpl. by rewrite mbind_run, Hrun. }
  destruct (reachable_pollers_inv _ Hreach') as [_ Hstop _ Hlive _].
  destruct (Hstop _ _ Hi) as [-> _].
  destruct (Hlive _ _ Hi) as [?|Hh]; [done|]. exfalso.
  rewrite Hu in Hh. revert Hrun Hh. rewrite RemoveMonitor_run.
  destruct (stopChannels (um rt) !! url) as [c|]; [|done].
  case_decide; [done|]. intros [= <-]. simpl. by rewrite lookup_delete_eq.
Qed.

(** ** What a probe does to its target, and to no other *)

(** [checkURL] in one equation: the registry and the runtime stay, the entry
    is logged (twice for a failed status), and the downtime list follows the
    outcome. *)
Lemma checkURL_effect url io rt :
  checkURL url io rt =
  Ok tt (with_um (λ u,
    set_downtimes
      (if failing io then
         if is_down (downtimes u) url then downtimes u
         else downtimes u ++ [seeded (entry_of url io)]
       else
         match getLastDowntime (downtimes u) url with
         | Some p =>
             match downtimes u !! p with
             | Some d => if DowntimeEntry.open d
                         then <[p := closed_at (closeTime io) d]> (downtimes u)
                         else downtimes u
             | None => downtimes u
             end
         | None => downtimes u
         end)
      (set_logs
         (logs u ++
            match result io with
            | GetErr _ => [entry_of url io]
            | GetResp _ => if failing io then [entry_of url io; entry_of url io]
                           else [entry_of url io]
            end) u)) rt).
Proof.
  rewrite checkURL_run. unfold failing, entry_of.
  destruct rt as [[ms ls ds sc cl] cn cc gs].
  destruct (result io) as [err|code]; simpl.
  - by rewrite handleFailure_run.
  - destruct (_ && _); simpl.
    + by rewrite handleSuccess_run.
    + rewrite handleFailure_run. unfold with_um, set_downtimes, set_logs. simpl.
      by rewrite <- app_assoc.
Qed.

Lemma entry_of_URL url io : LogEntry.URL (entry_of url io) = url.
Proof. unfold entry_of. by destruct (result io). Qed.

Lemma is_down_snoc_seeded ds e :
  is_down (ds ++ [seeded e]) (LogEntry.URL e) = true.
Proof.
  unfold is_down. rewrite <- getLastDowntime_most_recent, getLastDowntime_snoc.
  simpl. rewrite decide_True by done. simpl.
  by rewrite list_lookup_middle.
Qed.

Lemma is_down_closed ds url p d now :
  getLastDowntime ds url = Some p → ds !! p = Some d → now ≠ time.zero →
  is_down (<[p := closed_at now d]> ds) url = false.
Proof.
  intros Hp Hd Hnow. unfold is_down.
  rewrite <- getLastDowntime_most_recent.
  rewrite (getLastDowntime_insert ds url p d) by done. rewrite Hp. simpl.
  rewrite list_lookup_insert_eq by (by eapply lookup_lt_Some).
  unfold DowntimeEntry.open. simpl.
  destruct (time.IsZero now) eqn:Hz; [|done]. by apply IsZero_iff in Hz.
Qed.

(** X14: after a probe, the downtime records tell its outcome.  After a failed
    probe (transport error or status outside [200, 300)) the last-created
    record of the target is open; after a successful one, with a clock that
    does not read the zero instant, the target has no open last record. *)
Theorem checkURL_tracks_availability url io rt :
  ∃ rt', checkURL url io rt = Ok tt rt' ∧
    (failing io = true → is_down (downtimes (um rt')) url = true) ∧
    (failing io = false → closeTime io ≠ time.zero →
     is_down (downtimes (um rt')) url = false).
Proof.
  rewrite checkURL_effect. eexists. split; [done|]. simpl. split.
  - intros ->. destruct (is_down (downtimes (um rt)) url) eqn:Hdown; [done|].
    pose proof (is_down_snoc_seeded (downtimes (um rt)) (entry_of url io)) as H.
    by rewrite entry_of_URL in H.
  - intros -> Hnow.
    destruct (getLastDowntime (downtimes (um rt)) url) as [p|] eqn:Hp.
    2:{ unfold is_down. by rewrite <- getLastDowntime_most_recent, Hp. }
    destruct (downtimes (um rt) !! p) as [d|] eqn:Hd.
    2:{ apply getLastDowntime_Some in Hp as (? & ? & _). congruence. }
    destruct (DowntimeEntry.open d) eqn:Hopen; [by eapply is_down_closed|].
    unfold is_down. rewrite <- getLastDowntime_most_recent, Hp. simpl.
    by rewrite Hd.
Qed.

Lemma filter_insert_other {A} (P : A → Prop) `{!∀ x, Decision (P x)}
    (l : list A) p x y :
  l !! p = Some x → ¬ P x → ¬ P y → filter P (<[p:=y]> l) = filter P l.
Proof.
  revert p. induction l as [|a l IH]; intros p Hp Hx Hy; [done|].
  destruct p as [|p]; simpl in *.
  - injection Hp as ->. rewrite !filter_cons. by rewrite !decide_False.
  - rewrite !filter_cons. by rewrite IH.
Qed.

(** [checkURL] as its target's own business. *)
Lemma checkURL_frame url io rt :
  ∃ rt' new, checkURL url io rt = Ok tt rt' ∧
    logs (um rt') = logs (um rt) ++ new ∧
    0 < length new ≤ 2 ∧ Forall (λ e, LogEntry.URL e = url) new ∧
    (∀ url', url' ≠ url →
       records_of url' (downtimes (um rt')) = records_of url' (downtimes (um rt))) ∧
    monitors (um rt') = monitors (um rt) ∧
    stopChannels (um rt') = stopChannels (um rt) ∧
    chanNext rt' = chanNext rt ∧
    chanClosed rt' = chanClosed rt ∧ goroutines rt' = goroutines rt.
Proof.
  rewrite checkURL_effect. eexists _, _. split; [done|]. simpl.
  split; [done|]. split; [|split; [|split; [|done]]].
  - destruct (result io), (failing io); simpl; lia.
  - destruct (result io), (failing io); repeat constructor; apply entry_of_URL.
  - intros url' Hne. unfold records_of. destruct (failing io).
    + destruct (is_down _ _); [done|].
      rewrite filter_app, filter_cons, decide_False, filter_nil, app_nil_r; [done|].
      simpl. rewrite entry_of_URL. congruence.
    + destruct (getLastDowntime (downtimes (um rt)) url) as [p|] eqn:Hp; [|done].
      apply getLastDowntime_Some in Hp as (d & Hd & Hu & _). rewrite Hd.
      destruct (DowntimeEntry.open d); [|done].
      apply (filter_insert_other _ _ p d); [done|congruence|simpl; congruence].
Qed.

Lemma filter_other_url url url' (new : list LogEntry.t) :
  url' ≠ url → Forall (λ e, LogEntry.URL e = url) new →
  filter (λ e, LogEntry.URL e = url') new = [].
Proof.
  intros Hne. induction 1 as [|e l He _ IH]; [done|].
  rewrite filter_cons, decide_False; [done|congruence].
Qed.

(** X15: a probe of one target leaves every other target alone: their
    downtime records and their log entries, as [GetDowntimes] and [GetLogs]
    return them, are what they were, and so are the registry, the handles and
    the pollers. *)
Theorem checkURL_leaves_other_targets url io rt url' :
  url' ≠ url →
  ∃ rt', checkURL url io rt = Ok tt rt' ∧
    (∃ l, GetLogs url' rt = Ok l rt ∧ GetLogs url' rt' = Ok l rt') ∧
    (∃ l, GetDowntimes url' rt = Ok l rt ∧ GetDowntimes url' rt' = Ok l rt') ∧
    monitors (um rt') = monitors (um rt) ∧
    stopChannels (um rt') = stopChannels (um rt) ∧
    chanClosed rt' = chanClosed rt ∧ goroutines rt' = goroutines rt.
Proof.
  intros Hne.
  destruct (checkURL_frame url io rt)
    as (rt' & new & Hrun & Hlogs & _ & Hnew & Hrec & Hm & Hs & _ & Hc & Hg).
  exists rt'. split; [done|]. rewrite !GetLogs_run, !GetDowntimes_run.
  split; [|split; [|done]].
  - eexists. split; [done|].
    by rewrite Hlogs, filter_app, (filter_other_url url url' new), app_nil_r.
  - eexists. split; [done|]. f_equal. by apply Hrec.
Qed.

(** ** An outage from its first failure to the recovery *)

Lemma exec_all_app cs1 cs2 rt :
  exec_all (cs1 ++ cs2) rt
  = match exec_all cs1 rt with
    | Ok _ rt1 => exec_all cs2 rt1
    | Panic msg => Panic msg
    end.
Proof.
  revert rt. induction cs1 as [|c cs1 IH]; intros rt; simpl; [done|].
  rewrite !mbind_run. destruct (exec c rt) as [[] rt1|]; [apply IH|done].
Qed.

Lemma failures_while_down url fs rt :
  Forall (λ io, failing io = true) fs →
  is_down (downtimes (um rt)) url = true →
  ∃ rt', exec_all (CCheck url <$> fs) rt = Ok tt rt' ∧
         downtimes (um rt') = downtimes (um rt).
Proof.
  intros Hfs. revert rt. induction Hfs as [|f fs Hf _ IH]; intros rt Hdown; simpl.
  - by exists rt.
  - rewrite mbind_run, checkURL_effect, Hf.
    destruct (IH (with_um (λ u,
      set_downtimes (if is_down (downtimes u) url then downtimes u
                     else downtimes u ++ [seeded (entry_of url f)])
        (set_logs (logs u ++ match result f with
                             | GetErr _ => [entry_of url f]
                             | GetResp _ => [entry_of url f; entry_of url f]
                             end) u)) rt)) as (rt' & Hrun & Hds).
    { simpl. by rewrite Hdown. }
    exists rt'. split; [exact Hrun|]. rewrite Hds. simpl. by rewrite Hdown.
Qed.

(** X16: an outage is one downtime record.  For a target that is up, a failed
    probe, any number of further failed probes, and then a successful probe
    add exactly one record to the downtime list: the one seeded by the first
    failure, closed at the clock reading of the successful probe, with the
    text of [EndTime.Sub(StartTime)] as duration (the monotonic difference
    between the two readings of [time.Now()]). *)
Theorem outage_is_one_record url f fs s rt :
  is_down (downtimes (um rt)) url = false →
  failing f = true → Forall (λ io, failing io = true) fs → failing s = false →
  ∃ rt', exec_all (CCheck url <$> (f :: fs ++ [s])) rt = Ok tt rt' ∧
    downtimes (um rt')
    = downtimes (um rt) ++
        [{| DowntimeEntry.URL := url;
            DowntimeEntry.StartTime := timestamp f;
            DowntimeEntry.EndTime := closeTime s;
            DowntimeEntry.Duration :=
              time.Duration_String (time.Sub (closeTime s) (timestamp f));
            DowntimeEntry.StatusCode := LogEntry.StatusCode (entry_of url f);
            DowntimeEntry.ErrorDetail := LogEntry.Error (entry_of url f) |}].
Proof.
  intros Hup Hf Hfs Hs. rewrite fmap_cons, fmap_app. simpl.
  rewrite mbind_run, checkURL_effect, Hf, exec_all_app.
  set (rt1 := with_um _ rt).
  assert (downtimes (um rt1)
          = downtimes (um rt) ++ [seeded (entry_of url f)]) as Hds1
    by (subst rt1; simpl; by rewrite Hup).
  destruct (failures_while_down url fs rt1 Hfs) as (rt2 & Hrun2 & Hds2).
  { rewrite Hds1. pose proof (is_down_snoc_seeded (downtimes (um rt))
                                (entry_of url f)) as H.
    by rewrite entry_of_URL in H. }
  rewrite Hrun2. simpl. rewrite mbind_run, checkURL_effect, Hs.
  eexists. split; [done|]. simpl. rewrite Hds2, Hds1.
  rewrite getLastDowntime_snoc. simpl.
  rewrite decide_True by apply entry_of_URL.
  rewrite list_lookup_middle by done. simpl.
  rewrite insert_app_r_alt by done. rewrite Nat.sub_diag. simpl.
  unfold closed_at, seeded. simpl.
  do 2 f_equal. f_equal; try apply entry_of_URL;
    unfold entry_of; by destruct (result f).
Qed.

(** ** The poller *)

Lemma monitorURL_loop_frame url stop sched rt :
  ∃ rt' new, monitorURL_loop url stop sched rt = Ok tt rt' ∧
    logs (um rt') = logs (um rt) ++ new ∧
    length new ≤ 2 * length (ticks sched) ∧
    Forall (λ e, LogEntry.URL e = url) new ∧
    (∀ url', url' ≠ url →
       records_of url' (downtimes (um rt')) = records_of url' (downtimes (um rt))) ∧
    monitors (um rt') = monitors (um rt) ∧
    stopChannels (um rt') = stopChannels (um rt) ∧
    chanNext rt' = chanNext rt ∧
    chanClosed rt' = chanClosed rt ∧ goroutines rt' = goroutines rt.
Proof.
  revert rt. induction sched as [|[|io] sched IH]; intros rt.
  - exists rt, []. simpl. rewrite app_nil_r. by repeat split.
  - simpl. case_decide.
    + exists rt, []. rewrite app_nil_r. repeat split; try done. simpl. lia.
    + destruct (IH rt) as (rt' & new & Hrun & Hlogs & Hlen & Hrest).
      exists rt', new. split; [done|]. split; [done|]. by split.
  - simpl. rewrite mbind_run.
    destruct (checkURL_frame url io rt)
      as (rt1 & new1 & -> & Hl1 & Hn1 & Hu1 & Hr1 & Hm1 & Hs1 & Hx1 & Hc1 & Hg1).
    destruct (IH rt1)
      as (rt' & new & Hrun & Hl & Hn & Hu & Hr & Hm & Hs & Hx & Hc & Hg).
    exists rt', (new1 ++ new). split; [done|].
    split; [by rewrite Hl, Hl1, app_assoc|].
    split; [rewrite length_app; unfold ticks in *; simpl; lia|].
    split; [by apply Forall_app|].
    split; [intros url' Hne; by rewrite Hr, Hr1|].
    repeat split; congruence.
Qed.

(** X17: a poller started with a non-positive interval panics before its
    first probe; one started with a positive interval never panics, and
    along any schedule it only appends log entries of its own target, at most
    two for each tick of the schedule (stop cases do not count), touches no
    other target's downtime records, and leaves the registry, the handles and
    the pollers as they were. *)
Theorem monitorURL_runs url interval stop sched rt :
  ((interval ≤ 0)%Z ∧
   monitorURL url interval stop sched rt
   = Panic "non-positive interval for NewTicker") ∨
  ((0 < interval)%Z ∧
   ∃ rt' new, monitorURL url interval stop sched rt = Ok tt rt' ∧
     logs (um rt') = logs (um rt) ++ new ∧
     length new ≤ 2 * length (ticks sched) ∧
     Forall (λ e, LogEntry.URL e = url) new ∧
     (∀ url', url' ≠ url →
        records_of url' (downtimes (um rt')) = records_of url' (downtimes (um rt))) ∧
     monitors (um rt') = monitors (um rt) ∧
     stopChannels (um rt') = stopChannels (um rt) ∧
     chanClosed rt' = chanClosed rt ∧ goroutines rt' = goroutines rt).
Proof.
  unfold monitorURL, time.NewTicker.
  destruct (Z.leb_spec interval 0) as [Hle|Hlt]; [by left|]. right.
  split; [done|].
  destruct (monitorURL_loop_frame url stop sched rt)
    as (rt' & new & Hrun & Hl & Hn & Hu & Hr & Hm & Hs & _ & Hc & Hg).
  by exists rt', new.
Qed.

(** X18: a poller with a positive interval whose stop channel is closed
    makes one [checkURL] call for each tick scheduled before the stop case,
    in order, and returns at the stop case: nothing scheduled after it is
    run. *)
Theorem monitorURL_stops_when_cancelled url interval stop ios rest rt :
  (0 < interval)%Z → stop ∈ chanClosed rt →
  monitorURL url interval stop ((CaseTick <$> ios) ++ CaseStop :: rest) rt
  = exec_all (CCheck url <$> ios) rt.
Proof.
  intros Hpos. unfold monitorURL, time.NewTicker.
  destruct (Z.leb_spec interval 0) as [?|_]; [lia|].
  revert rt. induction ios as [|io ios IH]; intros rt Hclosed; simpl.
  - by rewrite decide_True.
  - rewrite !mbind_run.
    destruct (checkURL_frame url io rt)
      as (rt1 & new1 & -> & _ & _ & _ & _ & _ & _ & _ & Hc1 & _).
    apply IH. by rewrite Hc1.
Qed.

(** ** Registering and removing *)

(** X12: registering a target that is not registered and removing it again
    gives back the engine object as it was (registry, handles, logs and
    downtimes); what remains is the poller that was started, with its channel
    closed. *)
Theorem AddMonitor_RemoveMonitor_roundtrip url interval rt :
  reachable rt → monitors (um rt) !! url = None →
  ∃ rt1 rt2 g,
    AddMonitor url interval rt = Ok None rt1 ∧
    RemoveMonitor url rt1 = Ok None rt2 ∧
    um rt2 = um rt ∧
    goroutines rt2 = goroutines rt ++ [g] ∧ g_url g = url ∧
    g_stop g ∈ chanClosed rt2.
Proof.
  intros [[Hdom _ _ Hclosed] _]%reachable_Inv Hfree.
  assert (stopChannels (um rt) !! url = None) as Hfree'
    by (by rewrite <- not_elem_of_dom, <- Hdom, not_elem_of_dom).
  rewrite AddMonitor_run, Hfree. eexists _, _, _. split; [done|].
  rewrite RemoveMonitor_run. simpl. rewrite lookup_insert_eq.
  rewrite decide_False by (intros ?%Hclosed; lia).
  split; [done|]. simpl. split; [|split; [done|split; [done|]]].
  - rewrite !delete_insert_eq, !delete_id by done. by destruct (um rt).
  - apply elem_of_union. left. by apply elem_of_singleton.
Qed.

(** X13: a target can be registered again right after its removal: both calls
    succeed, the new handle is a channel other than the old one and is not
    closed, the old one is, and logs and downtimes are untouched. *)
Theorem RemoveMonitor_AddMonitor_reregisters url interval rt :
  reachable rt → is_Some (monitors (um rt) !! url) →
  ∃ rt1 rt2 c c',
    RemoveMonitor url rt = Ok None rt1 ∧
    AddMonitor url interval rt1 = Ok None rt2 ∧
    stopChannels (um rt) !! url = Some c ∧
    stopChannels (um rt2) !! url = Some c' ∧
    c ≠ c' ∧ c ∈ chanClosed rt2 ∧ (c' ∉ chanClosed rt2) ∧
    logs (um rt2) = logs (um rt) ∧ downtimes (um rt2) = downtimes (um rt).
Proof.
  intros [[Hdom Hchan _ Hclosed] _]%reachable_Inv Hreg.
  assert (is_Some (stopChannels (um rt) !! url)) as [c Hc]
    by (by rewrite <- elem_of_dom, <- Hdom, elem_of_dom).
  destruct (Hchan _ _ Hc) as [Hlt Hopen].
  rewrite RemoveMonitor_run, Hc, decide_False by done.
  eexists _, _, c, (chanNext rt). split; [done|].
  rewrite AddMonitor_run. simpl. rewrite lookup_delete_eq.
  split; [done|]. simpl. split; [done|].
  split; [by rewrite lookup_insert_eq|]. split; [lia|].
  split; [apply elem_of_union; left; by apply elem_of_singleton|].
  split; [|done]. rewrite elem_of_union, elem_of_singleton.
  intros [?|?%Hclosed]; lia.
Qed.

(** ** The handlers *)

(** X19: [HandleAddMonitor] answers 201, 400 or 405: 405 exactly when the
    method is not POST, 201 exactly when the method is POST, the body decodes
    and its URL (empty or not) is not registered yet; with any other answer
    than 201 the state is unchanged. *)
Theorem HandleAddMonitor_status r rt :
  ∃ resp rt', HandleAddMonitor r rt = Ok resp rt' ∧
    (Status resp = 201%Z ∨ Status resp = 400%Z ∨ Status resp = 405%Z) ∧
    (Status resp = 405%Z ↔ Method r ≠ "POST") ∧
    (Status resp = 201%Z ↔
       Method r = "POST" ∧
       ∃ req, Body r = inr req ∧ monitors (um rt) !! req_URL req = None) ∧
    (Status resp ≠ 201%Z → rt' = rt).
Proof.
  unfold HandleAddMonitor.
  destruct (String.eqb_spec (Method r) "POST") as [HP|HP]; simpl.
  2:{ eexists _, _. split; [done|]. simpl. split; [auto|]. split; [done|].
      split; [|done]. split; [done|]. by intros [? _]. }
  destruct (Body r) as [err|req] eqn:Hbody.
  { eexists _, _. split; [done|]. simpl. split; [auto|]. split; [done|].
    split; [|done]. split; [done|]. by intros [_ (? & ? & _)]. }
  rewrite mbind_run, AddMonitor_run.
  destruct (monitors (um rt) !! req_URL req) as [m|] eqn:Hm.
  - eexists _, _. split; [done|]. simpl. split; [auto|]. split; [done|].
    split; [|done]. split; [done|]. intros [_ (? & [= <-] & ?)]. congruence.
  - eexists _, _. split; [done|]. simpl. split; [auto|]. split; [done|].
    split; [|done]. split; [|done]. intros _. split; [done|]. by exists req.
Qed.

Lemma wrap64_small z :
  (- 9223372036854775808 ≤ z < 9223372036854775808)%Z → time.wrap64 z = z.
Proof.
  intros Hz. unfold time.wrap64.
  change (2 ^ 63)%Z with 9223372036854775808%Z.
  change (2 ^ 64)%Z with 18446744073709551616%Z.
  rewrite Z.mod_small; lia.
Qed.

(** X20: for an interval of [n] seconds that fits a [Duration]
    (0 <= n <= 9223372036), a POST for an unregistered URL is answered 201
    and registers the target with [n] seconds, or with 30 seconds when [n] is
    zero (or absent from the body); the poller started for it does not
    panic. *)
Theorem HandleAddMonitor_seconds url n rt :
  (0 ≤ n ≤ 9223372036)%Z → monitors (um rt) !! url = None →
  ∃ rt' g,
    HandleAddMonitor
      {| Method := "POST"; Body := inr {| req_URL := url; req_Interval := n |} |} rt
    = Ok {| Status := 201; Text := "" |} rt' ∧
    monitors (um rt') !! url
    = Some {| Monitor.URL := url;
              Monitor.Interval :=
                if (n =? 0)%Z then 30000000000%Z else (n * 1000000000)%Z |} ∧
    goroutines rt' = goroutines rt ++ [g] ∧
    ∀ sched rt1, ∃ rt2, run_goroutine g sched rt1 = Ok tt rt2.
Proof.
  intros Hn Hfree. unfold HandleAddMonitor. simpl.
  rewrite mbind_run, AddMonitor_run. simpl. rewrite Hfree.
  unfold time.mul. change time.Second with 1000000000%Z.
  rewrite wrap64_small by lia.
  eexists _, _. split; [done|]. simpl.
  split; [|split; [done|]].
  - rewrite lookup_insert_eq. do 2 f_equal.
    destruct (Z.eqb_spec n 0), (Z.eqb_spec (n * 1000000000) 0); try lia; done.
  - intros sched rt1. unfold run_goroutine, monitorURL, time.NewTicker. simpl.
    match goal with
    | |- context [(?x <=? 0)%Z] => destruct (Z.leb_spec x 0) as [Hle|_]
    end.
    + destruct (Z.eqb_spec (n * 1000000000) 0); lia.
    + destruct (monitorURL_loop_frame url (chanNext rt) sched rt1)
        as (rt2 & _ & Hrun & _). by exists rt2.
Qed.

(** X21: in a reachable state [HandleRemoveMonitor] answers 200 exactly when
    the method is DELETE, the url parameter is not empty and the target is
    registered, and then the target is removed; it answers 405 for another
    method, 400 for an empty url, 404 for an unregistered target, and in these
    cases leaves the state unchanged. *)
Theorem HandleRemoveMonitor_status r rt :
  reachable rt →
  ∃ resp rt', HandleRemoveMonitor r rt = Ok resp rt' ∧
    (Status resp = 200%Z ↔
       Query.Method r = "DELETE" ∧ Query.url r ≠ "" ∧
       is_Some (monitors (um rt) !! Query.url r)) ∧
    (Status resp = 200%Z →
       monitors (um rt') = delete (Query.url r) (monitors (um rt)) ∧
       stopChannels (um rt') = delete (Query.url r) (stopChannels (um rt))) ∧
    (Status resp ≠ 200%Z → rt' = rt) ∧
    Status resp
    = (if decide (Query.Method r = "DELETE") then
         if decide (Query.url r = "") then 400
         else if decide (is_Some (monitors (um rt) !! Query.url r)) then 200
              else 404
       else 405)%Z.
Proof.
  intros [[Hdom Hchan _ _] _]%reachable_Inv. unfold HandleRemoveMonitor.
  destruct (String.eqb_spec (Query.Method r) "DELETE") as [HD|HD]; simpl.
  2:{ eexists _, _. split; [done|]. simpl. rewrite decide_False by done.
      repeat split; try done. by intros [? _]. }
  rewrite decide_True by done.
  destruct (String.eqb_spec (Query.url r) "") as [Hu|Hu].
  { eexists _, _. split; [done|]. simpl. rewrite decide_True by done.
    repeat split; try done. by intros (_ & ? & _). }
  rewrite decide_False by done. rewrite mbind_run, RemoveMonitor_run.
  assert (is_Some (monitors (um rt) !! Query.url r)
          ↔ is_Some (stopChannels (um rt) !! Query.url r)) as Hagree
    by (by rewrite <- !elem_of_dom, Hdom).
  destruct (stopChannels (um rt) !! Query.url r) as [c|] eqn:Hc.
  - destruct (Hchan _ _ Hc) as [_ Hopen]. rewrite decide_False by done.
    assert (is_Some (monitors (um rt) !! Query.url r)) as Hreg
      by (apply Hagree; by eexists).
    eexists _, _. split; [done|]. simpl. rewrite decide_True by done.
    repeat split; done.
  - assert (¬ is_Some (monitors (um rt) !! Query.url r)) as Hreg
      by (intros [? [=]]%Hagree).
    eexists _, _. split; [done|]. simpl. rewrite decide_False by done.
    repeat split; try done. by intros (_ & _ & ?).
Qed.

(** X22: [HandleGetLogs] and [HandleGetDowntimes] never change the state.  For
    a GET with a non-empty url they hand the encoder the target's log entries
    and downtime records, in order, also when the target was never
    registered (then an empty result, not an error); they answer 405 for
    another method and 400 for an empty url. *)
Theorem query_handlers_read_only r rt :
  ∃ a b, HandleGetLogs r rt = Ok a rt ∧ HandleGetDowntimes r rt = Ok b rt ∧
    a = (if decide (Query.Method r = "GET") then
           if decide (Query.url r = "") then
             ReplyError (http_Error "URL parameter is required" 400)
           else ReplyJSON (filter (λ e, LogEntry.URL e = Query.url r)
                             (logs (um rt)))
         else ReplyError (http_Error "Method not allowed" 405)) ∧
    b = (if decide (Query.Method r = "GET") then
           if decide (Query.url r = "") then
             ReplyError (http_Error "URL parameter is required" 400)
           else ReplyJSON (filter (λ d, DowntimeEntry.URL d = Query.url r)
                             (downtimes (um rt)))
         else ReplyError (http_Error "Method not allowed" 405)).
Proof.
  unfold HandleGetLogs, HandleGetDowntimes.
  destruct (String.eqb_spec (Query.Method r) "GET") as [HG|HG]; simpl.
  2:{ eexists _, _. rewrite !decide_False by done. done. }
  destruct (String.eqb_spec (Query.url r) "") as [Hu|Hu].
  { eexists _, _. rewrite !decide_True by done. done. }
  rewrite !mbind_run, GetLogs_run, GetDowntimes_run. simpl.
  eexists _, _. split; [reflexivity|]. split; [reflexivity|].
  repeat case_decide; done.
Qed.

(** ** The scan for the last record, and what the invariant makes of it *)

(** X1: [getLastDowntime] returns the greatest index that holds a record of
    the target, and nil exactly when the list holds no record of it. *)
Theorem getLastDowntime_spec (ds : list DowntimeEntry.t) url :
  (∀ p, getLastDowntime ds url = Some p ↔
        ∃ d, ds !! p = Some d ∧ DowntimeEntry.URL d = url ∧
             ∀ j d', p < j → ds !! j = Some d' → DowntimeEntry.URL d' ≠ url) ∧
  (getLastDowntime ds url = None ↔
     ∀ d, d ∈ ds → DowntimeEntry.URL d ≠ url).
Proof.
  split.
  - intros p. split; [apply getLastDowntime_Some|].
    intros (d & Hd & Hu & Hlast).
    destruct (getLastDowntime ds url) as [q|] eqn:Hq.
    + apply getLastDowntime_Some in Hq as (dq & Hdq & Huq & Hlastq).
      destruct (Nat.lt_trichotomy p q) as [Hlt|[->|Hgt]]; [|done|].
      * by destruct (Hlast q dq Hlt Hdq).
      * by destruct (Hlastq p d Hgt Hd).
    + destruct (getLastDowntime_None ds url d Hq); [|done].
      by eapply list_elem_of_lookup_2.
  - split; [intros Hnone d; by apply getLastDowntime_None|].
    intros Hnone. destruct (getLastDowntime ds url) as [q|] eqn:Hq; [|done].
    apply getLastDowntime_Some in Hq as (dq & Hdq & Huq & _).
    destruct (Hnone dq); [by eapply list_elem_of_lookup_2|done].
Qed.

Lemma dt_inv_prefix ds d : dt_inv (ds ++ [d]) → dt_inv ds.
Proof.
  intros Hinv p d0 Hp Hopen.
  pose proof (Hinv p d0 (lookup_app_l_Some _ _ _ _ Hp) Hopen) as Hlast.
  rewrite getLastDowntime_snoc in Hlast. case_decide; [|done].
  injection Hlast as <-. apply lookup_lt_Some in Hp. lia.
Qed.

Lemma dt_inv_earlier_closed ds url older d :
  dt_inv ds → records_of url ds = older ++ [d] →
  Forall (λ x, DowntimeEntry.open x = false) older.
Proof.
  revert older d. induction ds as [|a ds IH] using rev_ind;
    intros older d Hinv Hrec.
  - by destruct older.
  - unfold records_of in Hrec. rewrite filter_app, filter_cons, filter_nil in Hrec.
    case_decide as Hu.
    + apply app_inj_tail in Hrec as [<- <-]. apply Forall_forall.
      intros x [Hx [i Hi]%list_elem_of_lookup]%list_elem_of_filter.
      destruct (DowntimeEntry.open x) eqn:Hopen; [|done].
      pose proof (Hinv i x (lookup_app_l_Some _ _ _ _ Hi) Hopen) as Hlast.
      rewrite getLastDowntime_snoc, decide_True in Hlast by congruence.
      injection Hlast as <-. apply lookup_lt_Some in Hi. lia.
    + rewrite app_nil_r in Hrec. eapply IH; [by eapply dt_inv_prefix|done].
Qed.

(** X7: after any sequence of calls from the start, all downtime records of
    a target but the last-created one are closed. *)
Theorem earlier_records_closed cs :
  ∃ rt, exec_all cs boot = Ok tt rt ∧
    ∀ url older d, records_of url (downtimes (um rt)) = older ++ [d] →
      Forall (λ x, DowntimeEntry.EndTime x ≠ time.zero) older.
Proof.
  destruct (Inv_exec_all cs boot Inv_boot) as (rt & Hrun & [_ Hdt]).
  exists rt. split; [done|]. intros url older d Hrec.
  eapply Forall_impl; [by eapply dt_inv_earlier_closed|]. simpl.
  intros x Hclosed Hzero. apply open_iff_zero in Hzero. congruence.
Qed.

(** X8: after any sequence of calls from the start, a target has an open
    downtime record exactly when its last-created record is open: looking at
    the last record only, as [handleFailure] and [handleSuccess] do, misses
    no open record. *)
Theorem open_record_is_the_last cs :
  ∃ rt, exec_all cs boot = Ok tt rt ∧
    ∀ url, open_count url (downtimes (um rt))
           = if is_down (downtimes (um rt)) url then 1 else 0.
Proof.
  destruct (Inv_exec_all cs boot Inv_boot) as (rt & Hrun & [_ Hdt]).
  exists rt. split; [done|]. intros url.
  pose proof (dt_inv_open_count (downtimes (um rt)) url Hdt) as Hle.
  unfold open_count in *.
  destruct (filter _ (downtimes (um rt))) as [|x l] eqn:Hf.
  - destruct (is_down (downtimes (um rt)) url) eqn:Hdown; [|done]. exfalso.
    unfold is_down in Hdown.
    destruct (most_recent (downtimes (um rt)) url) as [d|] eqn:Hd; [|done].
    apply last_Some_elem_of, list_elem_of_filter in Hd as [Hu Hin].
    by apply (filter_nil_not_elem_of _ _ d Hf).
  - assert (x ∈ filter (λ d, DowntimeEntry.URL d = url ∧ DowntimeEntry.open d = true)
                  (downtimes (um rt))) as Hx by (rewrite Hf; left).
    apply list_elem_of_filter in Hx as [[Hu Hopen] [p Hp]%list_elem_of_lookup].
    rewrite <- Hu, (dt_inv_is_down _ p x Hdt Hp Hopen).
    simpl in Hle. destruct l; simpl in *; [done|lia].
Qed.

(** ** The further properties at concrete inputs *)

Ltac reach_down_since_t0 :=
  apply (exec_all_reachable
           [CAdd target time.Second; CCheck target (timed_out t0)] boot);
  [constructor | vm_compute; reflexivity].

Lemma logs_append_only_witness :
  exec_all recovery_calls down_since_t0 = Ok tt recovered ∧
  logs (um down_since_t0) `prefix_of` logs (um recovered) ∧
  ∃ l l', GetLogs target down_since_t0 = Ok l down_since_t0 ∧
          GetLogs target recovered = Ok l' recovered ∧ l `prefix_of` l'.
Proof.
  split; [vm_compute; reflexivity|].
  apply (logs_append_only recovery_calls down_since_t0 recovered target).
  vm_compute. reflexivity.
Defined.

Lemma downtime_records_kept_witness :
  exec_all recovery_calls down_since_t0 = Ok tt recovered ∧
  ∃ d', downtimes (um recovered) !! 0 = Some d' ∧
        DowntimeEntry.URL d' = target ∧ DowntimeEntry.StartTime d' = t0.
Proof.
  split; [vm_compute; reflexivity|].
  destruct (downtime_records_kept recovery_calls down_since_t0 recovered 0
              {| DowntimeEntry.URL := target; DowntimeEntry.StartTime := t0;
                 DowntimeEntry.EndTime := time.zero; DowntimeEntry.Duration := "";
                 DowntimeEntry.StatusCode := 0;
                 DowntimeEntry.ErrorDetail := timeout_text |})
    as (d' & Hd' & Hu & Hs & _).
  - vm_compute. reflexivity.
  - reflexivity.
  - exists d'. split; [exact Hd'|]. split; [exact Hu|exact Hs].
Defined.



Lemma RemoveMonitor_cancels_all_pollers_witness :
  reachable down_since_t0 ∧
  RemoveMonitor target down_since_t0 = Ok None removed ∧
  ∀ g, g ∈ goroutines removed → g_url g = target → g_stop g ∈ chanClosed removed.
Proof.
  assert (reachable down_since_t0) as Hreach by reach_down_since_t0.
  split; [exact Hreach|]. split; [vm_compute; reflexivity|].
  apply (RemoveMonitor_cancels_all_pollers target down_since_t0 removed Hreach).
  vm_compute. reflexivity.
Defined.

Lemma checkURL_leaves_other_targets_witness :
  other ≠ target ∧
  ∃ rt', checkURL target (answered 200 t2) down_since_t0 = Ok tt rt' ∧
    (∃ l, GetLogs other down_since_t0 = Ok l down_since_t0 ∧
          GetLogs other rt' = Ok l rt') ∧
    monitors (um rt') = monitors (um down_since_t0).
Proof.
  assert (other ≠ target) as Hne by discriminate.
  split; [exact Hne|].
  destruct (checkURL_leaves_other_targets target (answered 200 t2)
              down_since_t0 other Hne) as (rt' & Hrun & Hlogs & _ & Hm & _).
  exists rt'. split; [exact Hrun|]. split; [exact Hlogs|exact Hm].
Defined.

Lemma outage_is_one_record_witness :
  is_down (downtimes (um boot)) target = false ∧
  failing (answered 500 t0) = true ∧
  Forall (λ io, failing io = true) [timed_out t0] ∧
  failing (answered 200 t0_drifted) = false ∧
  ∃ rt', exec_all (CCheck target <$>
                     (answered 500 t0 :: [timed_out t0] ++ [answered 200 t0_drifted]))
           boot = Ok tt rt' ∧
    DowntimeEntry.StartTime <$> downtimes (um rt') = [t0] ∧
    DowntimeEntry.EndTime <$> downtimes (um rt') = [t0_drifted] ∧
    DowntimeEntry.Duration <$> downtimes (um rt') = ["20.247694ms"].
Proof.
  assert (Forall (λ io, failing io = true) [timed_out t0]) as Hfs
    by (constructor; [reflexivity|constructor]).
  split; [reflexivity|]. split; [reflexivity|]. split; [exact Hfs|].
  split; [reflexivity|].
  destruct (outage_is_one_record target (answered 500 t0) [timed_out t0]
              (answered 200 t0_drifted) boot eq_refl eq_refl Hfs eq_refl)
    as (rt' & Hrun & Hds).
  exists rt'. split; [exact Hrun|]. rewrite Hds. repeat split; reflexivity.
Defined.

Lemma monitorURL_stops_when_cancelled_witness :
  (0 < time.Second)%Z ∧ 0 ∈ chanClosed removed ∧
  monitorURL target time.Second 0
    ((CaseTick <$> [answered 500 t1]) ++ CaseStop :: [CaseTick (answered 200 t2)])
    removed
  = exec_all [CCheck target (answered 500 t1)] removed.
Proof.
  assert (0 < time.Second)%Z as Hpos by reflexivity.
  assert (0 ∈ chanClosed removed) as Hclosed.
  { apply (bool_decide_unpack _). vm_compute. exact I. }
  split; [exact Hpos|]. split; [exact Hclosed|].
  apply (monitorURL_stops_when_cancelled target time.Second 0
           [answered 500 t1] [CaseTick (answered 200 t2)] removed Hpos Hclosed).
Defined.

Lemma AddMonitor_RemoveMonitor_roundtrip_witness :
  reachable down_since_t0 ∧ monitors (um down_since_t0) !! other = None ∧
  ∃ rt1 rt2, AddMonitor other 0 down_since_t0 = Ok None rt1 ∧
             RemoveMonitor other rt1 = Ok None rt2 ∧
             um rt2 = um down_since_t0.
Proof.
  assert (reachable down_since_t0) as Hreach by reach_down_since_t0.
  assert (monitors (um down_since_t0) !! other = None) as Hfree
    by (vm_compute; reflexivity).
  split; [exact Hreach|]. split; [exact Hfree|].
  destruct (AddMonitor_RemoveMonitor_roundtrip other 0 down_since_t0 Hreach Hfree)
    as (rt1 & rt2 & g & Hadd & Hrem & Hum & _).
  exists rt1, rt2. split; [exact Hadd|]. split; [exact Hrem|exact Hum].
Defined.

Lemma RemoveMonitor_AddMonitor_reregisters_witness :
  reachable down_since_t0 ∧ is_Some (monitors (um down_since_t0) !! target) ∧
  ∃ rt1 rt2, RemoveMonitor target down_since_t0 = Ok None rt1 ∧
             AddMonitor target 0 rt1 = Ok None rt2 ∧
             downtimes (um rt2) = downtimes (um down_since_t0).
Proof.
  assert (reachable down_since_t0) as Hreach by reach_down_since_t0.
  assert (is_Some (monitors (um down_since_t0) !! target)) as Hreg
    by (eexists; vm_compute; reflexivity).
  split; [exact Hreach|]. split; [exact Hreg|].
  destruct (RemoveMonitor_AddMonitor_reregisters target 0 down_since_t0
              Hreach Hreg)
    as (rt1 & rt2 & c & c' & Hrem & Hadd & _ & _ & _ & _ & _ & _ & Hds).
  exists rt1, rt2. split; [exact Hrem|]. split; [exact Hadd|exact Hds].
Defined.

Lemma HandleAddMonitor_seconds_witness :
  (0 ≤ 5 ≤ 9223372036)%Z ∧ monitors (um boot) !! target = None ∧
  ∃ rt', HandleAddMonitor
           {| Method := "POST";
              Body := inr {| req_URL := target; req_Interval := 5 |} |} boot
         = Ok {| Status := 201; Text := "" |} rt' ∧
         Monitor.Interval <$> monitors (um rt') !! target = Some 5000000000%Z.
Proof.
  assert (0 ≤ 5 ≤ 9223372036)%Z as Hn by lia.
  split; [exact Hn|]. split; [reflexivity|].
  destruct (HandleAddMonitor_seconds target 5 boot Hn eq_refl)
    as (rt' & g & Hrun & Hm & _).
  exists rt'. split; [exact Hrun|]. rewrite Hm. reflexivity.
Defined.

Lemma HandleRemoveMonitor_status_witness :
  reachable down_since_t0 ∧
  ∃ resp rt', HandleRemoveMonitor delete_request down_since_t0 = Ok resp rt' ∧
              Status resp = 200%Z.
Proof.
  assert (reachable down_since_t0) as Hreach by reach_down_since_t0.
  split; [exact Hreach|].
  destruct (HandleRemoveMonitor_status delete_request down_since_t0 Hreach)
    as (resp & rt' & Hrun & _ & _ & _ & Hstatus).
  exists resp, rt'. split; [exact Hrun|]. rewrite Hstatus. reflexivity.
Defined.
